(** * ReducePointerLevel: collection and selection of pointer declarations

    A shallow embedding of [ReducePointerLevel.cpp] (the
    reduce-pointer-level pass of clang_delta).  The pass walks the AST of
    a translation unit, records every pointer-typed variable and field
    together with its indirection level, rules out the declarations whose
    uses it cannot rewrite, and turns a 1-based counter into one chosen
    declaration.

    Layout of the development:
    - the program model consumed by the pass (types, declarations,
      expressions, statements, pre-order traversal);
    - the pass instance (the fields of the C++ class) and the error monad
      in which a failed [TransAssert] aborts the run;
    - the collection visitor, the selector [doAnalysis], the rewrite
      visitor and [HandleTranslationUnit];
    - invariants of collection, a closed form of the selector, and the
      theorems about the specification. *)

From stdpp Require Import gmap strings list.

Set Warnings "-register-all".

Open Scope Z_scope.

(** ** Program model *)

(** A declaration object is identified by its address. *)
Definition DeclId := positive.

(** Types are taken desugared (no typedef sugar): the queries the pass
    makes ([isPointerType], [getPointeeType], [isAggregateType], ...) all
    look through sugar. *)
Inductive Ty :=
| BuiltinType (Name : string)
| PointerType (Pointee : Ty)
| ArrayType (ElementType : Ty)
| RecordType (RD : DeclId) (IsUnion : bool).

Definition isPointerType (T : Ty) : bool :=
  match T with PointerType _ => true | _ => false end.

Definition isArrayType (T : Ty) : bool :=
  match T with ArrayType _ => true | _ => false end.

Definition isStructureType (T : Ty) : bool :=
  match T with RecordType _ false => true | _ => false end.

Definition isUnionType (T : Ty) : bool :=
  match T with RecordType _ true => true | _ => false end.

Definition isAggregateType (T : Ty) : bool :=
  match T with ArrayType _ | RecordType _ _ => true | _ => false end.

(** [Type::getPointeeType]: the pointee of a pointer, a null [QualType]
    otherwise. *)
Definition getPointeeType (T : Ty) : option Ty :=
  match T with PointerType P => Some P | _ => None end.

Inductive DeclKind :=
| Var | ParmVar | Field | Function | CXXMethod | EnumConstant | IndirectField.

#[global] Instance DeclKind_eq_dec : EqDecision DeclKind.
Proof. solve_decision. Defined.

(** The kinds below [DeclaratorDecl] in the class hierarchy. *)
Definition isDeclaratorDeclKind (K : DeclKind) : bool :=
  match K with
  | Var | ParmVar | Field | Function | CXXMethod => true
  | EnumConstant | IndirectField => false
  end.

(** What the pass reads from a [ValueDecl] object.  [getCanonicalDecl] is
    the address of the representative shared by all redeclarations;
    [getParent] is the enclosing record of a field. *)
Record ValueDecl := {
  declPtr : DeclId;
  getKind : DeclKind;
  getNameAsString : string;
  getType : Ty;
  getCanonicalDecl : DeclId;
  getParent : DeclId
}.

Inductive UnaryOpcode :=
| UO_PostInc | UO_PostDec | UO_PreInc | UO_PreDec
| UO_AddrOf | UO_Deref
| UO_Plus | UO_Minus | UO_Not | UO_LNot
| UO_Real | UO_Imag | UO_Extension.

#[global] Instance UnaryOpcode_eq_dec : EqDecision UnaryOpcode.
Proof. solve_decision. Defined.

Inductive BinaryOpcode :=
| BO_PtrMemD | BO_PtrMemI
| BO_Mul | BO_Div | BO_Rem | BO_Add | BO_Sub | BO_Shl | BO_Shr
| BO_LT | BO_GT | BO_LE | BO_GE | BO_EQ | BO_NE
| BO_And | BO_Xor | BO_Or | BO_LAnd | BO_LOr
| BO_Assign
| BO_MulAssign | BO_DivAssign | BO_RemAssign | BO_AddAssign | BO_SubAssign
| BO_ShlAssign | BO_ShrAssign | BO_AndAssign | BO_XorAssign | BO_OrAssign
| BO_Comma.

(** [BO_Assign <= Opc <= BO_OrAssign]. *)
Definition isAssignmentOp (Opc : BinaryOpcode) : bool :=
  match Opc with
  | BO_Assign
  | BO_MulAssign | BO_DivAssign | BO_RemAssign | BO_AddAssign | BO_SubAssign
  | BO_ShlAssign | BO_ShrAssign | BO_AndAssign | BO_XorAssign | BO_OrAssign => true
  | _ => false
  end.

(** [BO_Assign < Opc <= BO_OrAssign]. *)
Definition isCompoundAssignmentOp (Opc : BinaryOpcode) : bool :=
  match Opc with
  | BO_MulAssign | BO_DivAssign | BO_RemAssign | BO_AddAssign | BO_SubAssign
  | BO_ShlAssign | BO_ShrAssign | BO_AndAssign | BO_XorAssign | BO_OrAssign => true
  | _ => false
  end.

(** Expressions; every node carries its type, as in the clang AST.
    Implicit and explicit casts are both [CastExpr]. *)
Inductive Expr :=
| DeclRefExpr (T : Ty) (D : ValueDecl)
| MemberExpr (T : Ty) (Base : Expr) (MemberDecl : ValueDecl)
| UnaryOperator (T : Ty) (Opc : UnaryOpcode) (SubExpr : Expr)
| BinaryOperator (T : Ty) (Opc : BinaryOpcode) (LHS RHS : Expr)
| ArraySubscriptExpr (T : Ty) (Base Idx : Expr)
| ParenExpr (T : Ty) (SubExpr : Expr)
| CastExpr (T : Ty) (SubExpr : Expr)
| CallExpr (T : Ty) (Callee : Expr) (Args : list Expr)
| ConditionalOperator (T : Ty) (Cond TrueExpr FalseExpr : Expr)
| IntegerLiteral (T : Ty) (Value : Z)
| InitListExpr (T : Ty) (Inits : list Expr).

Definition Expr_getType (E : Expr) : Ty :=
  match E with
  | DeclRefExpr T _ | MemberExpr T _ _ | UnaryOperator T _ _
  | BinaryOperator T _ _ _ | ArraySubscriptExpr T _ _ | ParenExpr T _
  | CastExpr T _ | CallExpr T _ _ | ConditionalOperator T _ _ _
  | IntegerLiteral T _ | InitListExpr T _ => T
  end.

(** [Expr::IgnoreParenCasts] (clang): skip parentheses and casts. *)
Fixpoint IgnoreParenCasts (E : Expr) : Expr :=
  match E with
  | ParenExpr _ SubExpr => IgnoreParenCasts SubExpr
  | CastExpr _ SubExpr => IgnoreParenCasts SubExpr
  | _ => E
  end.

Definition isDeclRefExpr (E : Expr) : bool :=
  match E with DeclRefExpr _ _ => true | _ => false end.

Definition isMemberExpr (E : Expr) : bool :=
  match E with MemberExpr _ _ _ => true | _ => false end.

Definition isUnaryOperator (E : Expr) : bool :=
  match E with UnaryOperator _ _ _ => true | _ => false end.

Definition isArraySubscriptExpr (E : Expr) : bool :=
  match E with ArraySubscriptExpr _ _ _ => true | _ => false end.

(** Declarations and statements. *)
Inductive Decl :=
| VarDecl (VD : ValueDecl) (Init : option Expr)
| FieldDecl (FD : ValueDecl)
| FunctionDecl (FD : ValueDecl) (Params : list Decl) (Body : option Stmt)
| RecordDecl (RD : DeclId) (Members : list Decl)
| TypedefDecl (Name : string) (T : Ty)
with Stmt :=
| ExprStmt (E : Expr)
| DeclStmt (Ds : list Decl)
| CompoundStmt (Body : list Stmt)
| IfStmt (Cond : Expr) (Then : Stmt) (Else : option Stmt)
| WhileStmt (Cond : Expr) (Body : Stmt)
| ReturnStmt (RetValue : option Expr)
| NullStmt.

(** The nodes a visitor callback of this pass can be invoked on. *)
Inductive ASTNode :=
| NDecl (D : Decl)
| NExpr (E : Expr).

(** Pre-order enumeration of the nodes below an expression, as
    [RecursiveASTVisitor] walks them: the node itself, then its children
    from left to right. *)
Fixpoint TraverseExpr (E : Expr) : list ASTNode :=
  NExpr E ::
  match E with
  | DeclRefExpr _ _ => []
  | MemberExpr _ Base _ => TraverseExpr Base
  | UnaryOperator _ _ SubExpr => TraverseExpr SubExpr
  | BinaryOperator _ _ LHS RHS => TraverseExpr LHS ++ TraverseExpr RHS
  | ArraySubscriptExpr _ Base Idx => TraverseExpr Base ++ TraverseExpr Idx
  | ParenExpr _ SubExpr => TraverseExpr SubExpr
  | CastExpr _ SubExpr => TraverseExpr SubExpr
  | CallExpr _ Callee Args => TraverseExpr Callee ++ flat_map TraverseExpr Args
  | ConditionalOperator _ C T F => TraverseExpr C ++ TraverseExpr T ++ TraverseExpr F
  | IntegerLiteral _ _ => []
  | InitListExpr _ Inits => flat_map TraverseExpr Inits
  end.

Definition TraverseOptExpr (E : option Expr) : list ASTNode :=
  match E with Some E => TraverseExpr E | None => [] end.

Fixpoint TraverseDecl (D : Decl) : list ASTNode :=
  NDecl D ::
  match D with
  | VarDecl _ Init => TraverseOptExpr Init
  | FieldDecl _ => []
  | FunctionDecl _ Params Body =>
      flat_map TraverseDecl Params ++
      match Body with Some B => TraverseStmt B | None => [] end
  | RecordDecl _ Members => flat_map TraverseDecl Members
  | TypedefDecl _ _ => []
  end
with TraverseStmt (St : Stmt) : list ASTNode :=
  match St with
  | ExprStmt E => TraverseExpr E
  | DeclStmt Ds => flat_map TraverseDecl Ds
  | CompoundStmt Body => flat_map TraverseStmt Body
  | IfStmt Cond Then Else =>
      TraverseExpr Cond ++ TraverseStmt Then ++
      match Else with Some B => TraverseStmt B | None => [] end
  | WhileStmt Cond Body => TraverseExpr Cond ++ TraverseStmt Body
  | ReturnStmt RetValue => TraverseOptExpr RetValue
  | NullStmt => []
  end.

Record DiagnosticsEngine := {
  SuppressAllDiagnostics : bool;
  ErrorOccurred : bool;
  FatalErrorOccurred : bool
}.

(** A translation unit arrives as a sequence of top-level declaration
    groups. *)
Definition DeclGroupRef := list Decl.

(** [DeclObject] is the store of declaration objects owned by the
    context: what a [Decl*] points to. *)
Record ASTContext := {
  DeclObject : DeclId -> option ValueDecl;
  TopLevelDecls : list DeclGroupRef;
  Diagnostics : DiagnosticsEngine
}.

Definition setSuppressAllDiagnostics (b : bool) (Ctx : ASTContext) : ASTContext :=
  {| DeclObject := DeclObject Ctx;
     TopLevelDecls := TopLevelDecls Ctx;
     Diagnostics :=
       {| SuppressAllDiagnostics := b;
          ErrorOccurred := ErrorOccurred (Diagnostics Ctx);
          FatalErrorOccurred := FatalErrorOccurred (Diagnostics Ctx) |} |}.

(** The nodes visited by [TraverseDecl(Ctx.getTranslationUnitDecl())]. *)
Definition TranslationUnitNodes (Ctx : ASTContext) : list ASTNode :=
  flat_map TraverseDecl (concat (TopLevelDecls Ctx)).

(** ** Errors

    Modelled from the spec: the [TransAssert] macro is declared in
    Transformation.h; an internal invariant violation aborts the run
    immediately. *)
Inductive Result (A : Type) :=
| Ok (a : A)
| TransAssertFailed (Msg : string).
Arguments Ok {A} a.
Arguments TransAssertFailed {A} Msg.

#[global] Instance Result_ret : MRet Result := @Ok.
#[global] Instance Result_bind : MBind Result := fun A B f m =>
  match m with
  | Ok a => f a
  | TransAssertFailed Msg => TransAssertFailed Msg
  end.

Definition TransAssert (Cond : bool) (Msg : string) : Result unit :=
  if Cond then Ok tt else TransAssertFailed Msg.

Definition isOk {A} (r : Result A) : bool :=
  match r with Ok _ => true | TransAssertFailed _ => false end.

(** ** The pass instance *)

Inductive TransErrorKind :=
| TransSuccess | TransInternalError | TransMaxInstanceError.

(** A pending text replacement held by [TheRewriter]. *)
Record TextEdit := {
  EditOffset : N;
  EditLength : N;
  EditText : string
}.

(** [DeclSet] is a [SmallPtrSet]: a set of addresses with an iteration
    order.  It is kept as a list without duplicates; the iteration order
    is taken to be insertion order, which is what the container yields
    while it is small.  Nothing proved below depends on the order within
    one set, except that it is the same on every run. *)
Abbreviation DeclSet := (list DeclId).

Definition DeclSet_insert (DD : DeclId) (S : DeclSet) : DeclSet :=
  if decide (DD ∈ S) then S else S ++ [DD].

(** The fields of [ReducePointerLevel], together with the fields it
    inherits from [Transformation].  The [int] fields are integers: a
    level or a count never exceeds the number of declarations of the
    translation unit.  [AllPtrDecls] maps a level to its set; a level
    with a null entry and a level without entry are both absent from the
    map. *)
Record ReducePointerLevel := {
  AllPtrDecls : gmap Z (list DeclId);
  VisitedDecls : gset DeclId;
  ValidDecls : gset DeclId;
  AddrTakenDecls : gset DeclId;
  MaxIndirectLevel : Z;
  TheDecl : option DeclId;
  TheRecordDecl : option DeclId;
  ValidInstanceNum : Z;
  TransformationCounter : Z;
  QueryInstanceOnly : bool;
  TransError : TransErrorKind;
  TheRewriter : list TextEdit
}.

Definition set_AllPtrDecls (v : gmap Z (list DeclId)) (st : ReducePointerLevel) :=
  {| AllPtrDecls := v; VisitedDecls := VisitedDecls st;
     ValidDecls := ValidDecls st; AddrTakenDecls := AddrTakenDecls st;
     MaxIndirectLevel := MaxIndirectLevel st; TheDecl := TheDecl st;
     TheRecordDecl := TheRecordDecl st; ValidInstanceNum := ValidInstanceNum st;
     TransformationCounter := TransformationCounter st;
     QueryInstanceOnly := QueryInstanceOnly st; TransError := TransError st;
     TheRewriter := TheRewriter st |}.

Definition set_VisitedDecls (v : gset DeclId) (st : ReducePointerLevel) :=
  {| AllPtrDecls := AllPtrDecls st; VisitedDecls := v;
     ValidDecls := ValidDecls st; AddrTakenDecls := AddrTakenDecls st;
     MaxIndirectLevel := MaxIndirectLevel st; TheDecl := TheDecl st;
     TheRecordDecl := TheRecordDecl st; ValidInstanceNum := ValidInstanceNum st;
     TransformationCounter := TransformationCounter st;
     QueryInstanceOnly := QueryInstanceOnly st; TransError := TransError st;
     TheRewriter := TheRewriter st |}.

Definition set_ValidDecls (v : gset DeclId) (st : ReducePointerLevel) :=
  {| AllPtrDecls := AllPtrDecls st; VisitedDecls := VisitedDecls st;
     ValidDecls := v; AddrTakenDecls := AddrTakenDecls st;
     MaxIndirectLevel := MaxIndirectLevel st; TheDecl := TheDecl st;
     TheRecordDecl := TheRecordDecl st; ValidInstanceNum := ValidInstanceNum st;
     TransformationCounter := TransformationCounter st;
     QueryInstanceOnly := QueryInstanceOnly st; TransError := TransError st;
     TheRewriter := TheRewriter st |}.

Definition set_AddrTakenDecls (v : gset DeclId) (st : ReducePointerLevel) :=
  {| AllPtrDecls := AllPtrDecls st; VisitedDecls := VisitedDecls st;
     ValidDecls := ValidDecls st; AddrTakenDecls := v;
     MaxIndirectLevel := MaxIndirectLevel st; TheDecl := TheDecl st;
     TheRecordDecl := TheRecordDecl st; ValidInstanceNum := ValidInstanceNum st;
     TransformationCounter := TransformationCounter st;
     QueryInstanceOnly := QueryInstanceOnly st; TransError := TransError st;
     TheRewriter := TheRewriter st |}.

Definition set_MaxIndirectLevel (v : Z) (st : ReducePointerLevel) :=
  {| AllPtrDecls := AllPtrDecls st; VisitedDecls := VisitedDecls st;
     ValidDecls := ValidDecls st; AddrTakenDecls := AddrTakenDecls st;
     MaxIndirectLevel := v; TheDecl := TheDecl st;
     TheRecordDecl := TheRecordDecl st; ValidInstanceNum := ValidInstanceNum st;
     TransformationCounter := TransformationCounter st;
     QueryInstanceOnly := QueryInstanceOnly st; TransError := TransError st;
     TheRewriter := TheRewriter st |}.

Definition set_TheDecl (v : option DeclId) (st : ReducePointerLevel) :=
  {| AllPtrDecls := AllPtrDecls st; VisitedDecls := VisitedDecls st;
     ValidDecls := ValidDecls st; AddrTakenDecls := AddrTakenDecls st;
     MaxIndirectLevel := MaxIndirectLevel st; TheDecl := v;
     TheRecordDecl := TheRecordDecl st; ValidInstanceNum := ValidInstanceNum st;
     TransformationCounter := TransformationCounter st;
     QueryInstanceOnly := QueryInstanceOnly st; TransError := TransError st;
     TheRewriter := TheRewriter st |}.

Definition set_TheRecordDecl (v : option DeclId) (st : ReducePointerLevel) :=
  {| AllPtrDecls := AllPtrDecls st; VisitedDecls := VisitedDecls st;
     ValidDecls := ValidDecls st; AddrTakenDecls := AddrTakenDecls st;
     MaxIndirectLevel := MaxIndirectLevel st; TheDecl := TheDecl st;
     TheRecordDecl := v; ValidInstanceNum := ValidInstanceNum st;
     TransformationCounter := TransformationCounter st;
     QueryInstanceOnly := QueryInstanceOnly st; TransError := TransError st;
     TheRewriter := TheRewriter st |}.

Definition set_ValidInstanceNum (v : Z) (st : ReducePointerLevel) :=
  {| AllPtrDecls := AllPtrDecls st; VisitedDecls := VisitedDecls st;
     ValidDecls := ValidDecls st; AddrTakenDecls := AddrTakenDecls st;
     MaxIndirectLevel := MaxIndirectLevel st; TheDecl := TheDecl st;
     TheRecordDecl := TheRecordDecl st; ValidInstanceNum := v;
     TransformationCounter := TransformationCounter st;
     QueryInstanceOnly := QueryInstanceOnly st; TransError := TransError st;
     TheRewriter := TheRewriter st |}.

Definition set_TransformationCounter (v : Z) (st : ReducePointerLevel) :=
  {| AllPtrDecls := AllPtrDecls st; VisitedDecls := VisitedDecls st;
     ValidDecls := ValidDecls st; AddrTakenDecls := AddrTakenDecls st;
     MaxIndirectLevel := MaxIndirectLevel st; TheDecl := TheDecl st;
     TheRecordDecl := TheRecordDecl st; ValidInstanceNum := ValidInstanceNum st;
     TransformationCounter := v;
     QueryInstanceOnly := QueryInstanceOnly st; TransError := TransError st;
     TheRewriter := TheRewriter st |}.

Definition set_TransError (v : TransErrorKind) (st : ReducePointerLevel) :=
  {| AllPtrDecls := AllPtrDecls st; VisitedDecls := VisitedDecls st;
     ValidDecls := ValidDecls st; AddrTakenDecls := AddrTakenDecls st;
     MaxIndirectLevel := MaxIndirectLevel st; TheDecl := TheDecl st;
     TheRecordDecl := TheRecordDecl st; ValidInstanceNum := ValidInstanceNum st;
     TransformationCounter := TransformationCounter st;
     QueryInstanceOnly := QueryInstanceOnly st; TransError := v;
     TheRewriter := TheRewriter st |}.

(** Modelled from the spec: the constructors live in ReducePointerLevel.h
    and Transformation.h.  A fresh instance has an empty registry, empty
    sets, maximum level 0, running count 0 and no selection; the driver
    supplies the counter and the query flag. *)
Definition newInstance (Counter : Z) (QueryOnly : bool) : ReducePointerLevel :=
  {| AllPtrDecls := ∅; VisitedDecls := ∅; ValidDecls := ∅;
     AddrTakenDecls := ∅; MaxIndirectLevel := 0; TheDecl := None;
     TheRecordDecl := None; ValidInstanceNum := 0;
     TransformationCounter := Counter; QueryInstanceOnly := QueryOnly;
     TransError := TransSuccess; TheRewriter := [] |}.

(** ** Helpers of the pass *)

(** [getArrayBaseElemType]: peel array types down to the element type.
    [base_elem_loop] is the [while (ArrayElemTy->isArrayType())] loop. *)
Fixpoint base_elem_loop (ArrayElemTy : Ty) : Ty :=
  match ArrayElemTy with
  | ArrayType ElementType => base_elem_loop ElementType
  | _ => ArrayElemTy
  end.

Definition getArrayBaseElemType (ArrayTy : Ty) : Ty :=
  match ArrayTy with
  | ArrayType ElementType => base_elem_loop ElementType
  | _ => ArrayTy
  end.

Definition addOneDecl (DD : DeclId) (IndirectLevel : Z)
    (st : ReducePointerLevel) : ReducePointerLevel :=
  let DDSet := default [] (AllPtrDecls st !! IndirectLevel) in
  set_AllPtrDecls (<[IndirectLevel := DeclSet_insert DD DDSet]> (AllPtrDecls st)) st.

(** The line feed (character 10) that ends one of the assertion
    messages. *)
Definition newline : string :=
  String (Ascii.Ascii false true false true false false false false) EmptyString.

(** [dyn_cast<DeclaratorDecl>(DD->getCanonicalDecl())]: the canonical
    declaration has the kind of its redeclarations. *)
Definition canonicalDeclaratorDecl (DD : ValueDecl) : option DeclId :=
  if isDeclaratorDeclKind (getKind DD) then Some (getCanonicalDecl DD) else None.

Definition getCanonicalDeclaratorDecl (E : Expr) : Result DeclId :=
  DD ← match E with
       | DeclRefExpr _ ValueD =>
           TransAssert (isDeclaratorDeclKind (getKind ValueD)) "Bad Declarator!";;
           Ok ValueD
       | MemberExpr _ _ OrigDecl =>
           TransAssert (bool_decide (getKind OrigDecl = Field))
             (String.append "Unsupported C++ getMemberDecl!" newline);;
           Ok OrigDecl
       | _ => TransAssertFailed "Bad Decl!"
       end;
  match canonicalDeclaratorDecl DD with
  | Some CanonicalDD => Ok CanonicalDD
  | None => TransAssertFailed "NULL CanonicalDD!"
  end.

(** The [while (true)] loop of [ignoreSubscriptExprParenCasts]. *)
Fixpoint subscript_loop (NewE : Expr) : Expr :=
  match NewE with
  | ArraySubscriptExpr _ Base _ => subscript_loop (IgnoreParenCasts Base)
  | _ => NewE
  end.

Definition ignoreSubscriptExprParenCasts (E : Expr) : Expr :=
  subscript_loop (IgnoreParenCasts E).

Fixpoint getRefDecl (Exp : Expr) : Result DeclId :=
  let E := ignoreSubscriptExprParenCasts Exp in
  match E with
  | DeclRefExpr _ _ => getCanonicalDeclaratorDecl E
  | MemberExpr _ _ _ => getCanonicalDeclaratorDecl E
  | UnaryOperator _ Opc SubE =>
      TransAssert (bool_decide (Opc = UO_Deref)) "Non-Deref Opcode!";;
      getRefDecl SubE
  | _ => TransAssertFailed "Bad UnaryOperator!"
  end.

(** ** Collection visitor *)

Module PointerLevelCollectionVisitor.

(** [getPointerIndirectLevel].  [pointee_loop QT IndirectLevel] runs the
    [while (!QT.isNull())] loop from a turn entered with the non-null
    [QT]: the level is incremented and [QT] replaced by its pointee. *)
Fixpoint pointee_loop (QT : Ty) (IndirectLevel : Z) : Z :=
  match QT with
  | PointerType Pointee => pointee_loop Pointee (IndirectLevel + 1)
  | _ => IndirectLevel + 1
  end.

Definition getPointerIndirectLevel (T : Ty) : Z :=
  match getPointeeType T with
  | Some QT => pointee_loop QT 0
  | None => 0
  end.

(** [!Name.compare(Other)]: [compare] returns 0 on equal strings. *)
Definition compare_is_zero (Name Other : string) : bool :=
  match String.compare Name Other with Eq => true | _ => false end.

Definition isVAArgField (DD : ValueDecl) : bool :=
  let Name := getNameAsString DD in
  compare_is_zero Name "reg_save_area" || compare_is_zero Name "overflow_arg_area".


Definition VisitDeclaratorDecl (DD : ValueDecl)
    (st : ReducePointerLevel) : Result ReducePointerLevel :=
  if isVAArgField DD then Ok st else
  let K := getKind DD in
  if negb (bool_decide (K = Field)) && negb (bool_decide (K = Var)) then Ok st else
  let T := getType DD in
  let T := if isArrayType T then getArrayBaseElemType T else T in
  if negb (isPointerType T) then Ok st else
  match canonicalDeclaratorDecl DD with
  | None => TransAssertFailed "Bad DeclaratorDecl!"
  | Some CanonicalDD =>
      if decide (CanonicalDD ∈ VisitedDecls st) then Ok st else
      let st := set_ValidDecls ({[CanonicalDD]} ∪ ValidDecls st) st in
      let st := set_VisitedDecls ({[CanonicalDD]} ∪ VisitedDecls st) st in
      let IndirectLevel := getPointerIndirectLevel T in
      TransAssert (bool_decide (IndirectLevel > 0)) "Bad indirect level!";;
      let st := if bool_decide (IndirectLevel > MaxIndirectLevel st)
                then set_MaxIndirectLevel IndirectLevel st else st in
      Ok (addOneDecl CanonicalDD IndirectLevel st)
  end.

Definition VisitUnaryOperator (Opc : UnaryOpcode) (SubExpr : Expr)
    (st : ReducePointerLevel) : Result ReducePointerLevel :=
  if negb (bool_decide (Opc = UO_AddrOf)) then Ok st else
  let SubE := IgnoreParenCasts SubExpr in
  if negb (isDeclRefExpr SubE) && negb (isMemberExpr SubE) then Ok st else
  DD ← getCanonicalDeclaratorDecl SubE;
  Ok (set_AddrTakenDecls ({[DD]} ∪ AddrTakenDecls st) st).

Definition VisitBinaryOperator (Opc : BinaryOpcode) (Lhs RHS : Expr)
    (st : ReducePointerLevel) : Result ReducePointerLevel :=
  if negb (isAssignmentOp Opc) && negb (isCompoundAssignmentOp Opc) then Ok st else
  let T := Expr_getType Lhs in
  if negb (isPointerType T) then Ok st else
  let Rhs := IgnoreParenCasts RHS in
  if isDeclRefExpr Rhs || isUnaryOperator Rhs || isArraySubscriptExpr Rhs
  then Ok st else
  DD ← getRefDecl Lhs;
  Ok (set_ValidDecls (ValidDecls st ∖ {[DD]}) st).

(** Dispatch of the collection visitor on one node: [VisitDeclaratorDecl]
    fires on every declarator declaration, the two operator callbacks on
    their node classes. *)
Definition Visit (N : ASTNode)
    (st : ReducePointerLevel) : Result ReducePointerLevel :=
  match N with
  | NDecl (VarDecl DD _) => VisitDeclaratorDecl DD st
  | NDecl (FieldDecl DD) => VisitDeclaratorDecl DD st
  | NDecl (FunctionDecl DD _ _) => VisitDeclaratorDecl DD st
  | NExpr (UnaryOperator _ Opc SubExpr) => VisitUnaryOperator Opc SubExpr st
  | NExpr (BinaryOperator _ Opc LHS RHS) => VisitBinaryOperator Opc LHS RHS st
  | _ => Ok st
  end.

End PointerLevelCollectionVisitor.

Import PointerLevelCollectionVisitor.

(** Run a visitor over a node sequence; the first failed assertion ends
    the run. *)
Fixpoint VisitAll (Visit : ASTNode -> ReducePointerLevel -> Result ReducePointerLevel)
    (Ns : list ASTNode) (st : ReducePointerLevel) : Result ReducePointerLevel :=
  match Ns with
  | [] => Ok st
  | N :: Ns' => st' ← Visit N st; VisitAll Visit Ns' st'
  end.

Fixpoint HandleTopLevelDecl (D : DeclGroupRef)
    (st : ReducePointerLevel) : Result ReducePointerLevel :=
  match D with
  | [] => Ok st
  | It :: D' =>
      st' ← VisitAll PointerLevelCollectionVisitor.Visit (TraverseDecl It) st;
      HandleTopLevelDecl D' st'
  end.

(** ** Selector *)

(** The loop over the registry set of the maximum level. *)
Fixpoint max_level_loop (Decls : DeclSet) (st : ReducePointerLevel) : ReducePointerLevel :=
  match Decls with
  | [] => st
  | It :: Decls' =>
      if negb (bool_decide (It ∈ ValidDecls st)) then max_level_loop Decls' st else
      let st := set_ValidInstanceNum (ValidInstanceNum st + 1) st in
      let st := if bool_decide (TransformationCounter st = ValidInstanceNum st)
                then set_TheDecl (Some It) st else st in
      max_level_loop Decls' st
  end.

(** The loop over the registry set of a lower level. *)
Fixpoint lower_level_loop (Decls : DeclSet) (st : ReducePointerLevel) : ReducePointerLevel :=
  match Decls with
  | [] => st
  | It :: Decls' =>
      if negb (bool_decide (It ∈ ValidDecls st)) || bool_decide (It ∈ AddrTakenDecls st)
      then lower_level_loop Decls' st else
      let st := set_ValidInstanceNum (ValidInstanceNum st + 1) st in
      let st := if bool_decide (TransformationCounter st = ValidInstanceNum st)
                then set_TheDecl (Some It) st else st in
      lower_level_loop Decls' st
  end.

(** [for (Idx = n; Idx > 0; --Idx)]. *)
Fixpoint levels_loop (n : nat) (st : ReducePointerLevel) : ReducePointerLevel :=
  match n with
  | O => st
  | S n' =>
      let Idx := Z.of_nat n in
      let st := match AllPtrDecls st !! Idx with
                | None => st
                | Some Decls => lower_level_loop Decls st
                end in
      levels_loop n' st
  end.

Definition doAnalysis (st : ReducePointerLevel) : ReducePointerLevel :=
  let st := match AllPtrDecls st !! MaxIndirectLevel st with
            | Some Decls => max_level_loop Decls st
            | None => st
            end in
  levels_loop (Z.to_nat (MaxIndirectLevel st - 1)) st.

(** ** Rewriter *)

(** The four rewrite members have empty bodies in the source. *)
Definition rewriteVarDecl (VD : ValueDecl) (st : ReducePointerLevel) : ReducePointerLevel :=
  st.

Definition rewriteFieldDecl (FD : ValueDecl) (st : ReducePointerLevel) : ReducePointerLevel :=
  st.

Definition rewriteRecordInit (RD : DeclId) (Init : option Expr)
    (st : ReducePointerLevel) : ReducePointerLevel :=
  st.

Definition rewriteArrayInit (RD : DeclId) (Init : option Expr)
    (st : ReducePointerLevel) : ReducePointerLevel :=
  st.

(** [dyn_cast<FieldDecl>(P)] and [dyn_cast<VarDecl>(P)] on a possibly null
    declaration pointer. *)
Definition dyn_cast_FieldDecl (Ctx : ASTContext) (P : option DeclId) : option ValueDecl :=
  D ← P ≫= DeclObject Ctx;
  if bool_decide (getKind D = Field) then Some D else None.

Definition dyn_cast_VarDecl (Ctx : ASTContext) (P : option DeclId) : option ValueDecl :=
  D ← P ≫= DeclObject Ctx;
  if bool_decide (getKind D = Var) || bool_decide (getKind D = ParmVar)
  then Some D else None.

Module PointerLevelRewriteVisitor.

Definition VisitFieldDecl (Ctx : ASTContext) (FD : ValueDecl)
    (st : ReducePointerLevel) : Result ReducePointerLevel :=
  match dyn_cast_FieldDecl Ctx (TheDecl st) with
  | None => Ok st
  | Some TheFD =>
      let CanonicalFD := getCanonicalDecl FD in
      if bool_decide (Some CanonicalFD = TheDecl st)
      then Ok (rewriteFieldDecl FD st) else Ok st
  end.

(** In the last branch the source takes [RDTy->getDecl()] without a test.
    An aggregate type that is not an array is a record, so for the types
    of this model the cast cannot fail and the last case of the match is
    never reached; it stands for the run being lost on a null
    dereference, and no theorem below rests on it. *)
Definition VisitVarDecl (Ctx : ASTContext) (VD : ValueDecl) (Init : option Expr)
    (st : ReducePointerLevel) : Result ReducePointerLevel :=
  let TheVD := dyn_cast_VarDecl Ctx (TheDecl st) in
  if bool_decide (is_Some TheVD) && bool_decide (Some (getCanonicalDecl VD) = TheDecl st)
  then Ok (rewriteVarDecl VD st) else
  if negb (bool_decide (is_Some Init)) then Ok st else
  let VDTy := getType VD in
  if negb (isAggregateType VDTy) then Ok st else
  if isArrayType VDTy then
    let ArrayElemTy := getArrayBaseElemType VDTy in
    if negb (isStructureType ArrayElemTy) && negb (isUnionType ArrayElemTy)
    then Ok st else
    match ArrayElemTy with
    | RecordType RD _ => Ok (rewriteArrayInit RD Init st)
    | _ => TransAssertFailed "Bad RDTy!"
    end
  else
    match VDTy with
    | RecordType RD _ => Ok (rewriteRecordInit RD Init st)
    | _ => TransAssertFailed "NULL RDTy"
    end.

Definition VisitUnaryOperator (Opc : UnaryOpcode) (SubExpr : Expr)
    (st : ReducePointerLevel) : Result ReducePointerLevel :=
  Ok st.

Definition VisitDeclRefExpr (D : ValueDecl)
    (st : ReducePointerLevel) : Result ReducePointerLevel :=
  Ok st.

Definition VisitMemberExpr (Base : Expr) (MemberDecl : ValueDecl)
    (st : ReducePointerLevel) : Result ReducePointerLevel :=
  Ok st.

Definition VisitArraySubscriptExpr (Base Idx : Expr)
    (st : ReducePointerLevel) : Result ReducePointerLevel :=
  Ok st.

Definition Visit (Ctx : ASTContext) (N : ASTNode)
    (st : ReducePointerLevel) : Result ReducePointerLevel :=
  match N with
  | NDecl (VarDecl VD Init) => VisitVarDecl Ctx VD Init st
  | NDecl (FieldDecl FD) => VisitFieldDecl Ctx FD st
  | NExpr (UnaryOperator _ Opc SubExpr) => VisitUnaryOperator Opc SubExpr st
  | NExpr (DeclRefExpr _ D) => VisitDeclRefExpr D st
  | NExpr (MemberExpr _ Base MemberDecl) => VisitMemberExpr Base MemberDecl st
  | NExpr (ArraySubscriptExpr _ Base Idx) => VisitArraySubscriptExpr Base Idx st
  | _ => Ok st
  end.

End PointerLevelRewriteVisitor.

Definition setRecordDecl (Ctx : ASTContext) (st : ReducePointerLevel) : ReducePointerLevel :=
  match dyn_cast_FieldDecl Ctx (TheDecl st) with
  | None => st
  | Some TheFD => set_TheRecordDecl (Some (getParent TheFD)) st
  end.

Definition hasErrorOccurred (Ctx : ASTContext) : bool :=
  ErrorOccurred (Diagnostics Ctx).

Definition hasFatalErrorOccurred (Ctx : ASTContext) : bool :=
  FatalErrorOccurred (Diagnostics Ctx).

(** ** The consumer entry points *)

Definition HandleTranslationUnit (Ctx : ASTContext)
    (st : ReducePointerLevel) : Result (ASTContext * ReducePointerLevel) :=
  let st := doAnalysis st in
  if QueryInstanceOnly st then Ok (Ctx, st) else
  if bool_decide (TransformationCounter st > ValidInstanceNum st)
  then Ok (Ctx, set_TransError TransMaxInstanceError st) else
  let Ctx := setSuppressAllDiagnostics false Ctx in
  TransAssert (bool_decide (is_Some (TheDecl st))) "NULL TheDecl!";;
  let st := setRecordDecl Ctx st in
  st ← VisitAll (PointerLevelRewriteVisitor.Visit Ctx) (TranslationUnitNodes Ctx) st;
  if hasErrorOccurred Ctx || hasFatalErrorOccurred Ctx
  then Ok (Ctx, set_TransError TransInternalError st)
  else Ok (Ctx, st).

(** Modelled from the spec: the driver is not part of this file.  It
    feeds every top-level declaration group to the collector, in source
    order, and then asks for the analysis of the whole unit. *)
Fixpoint HandleTopLevelDecls (Gs : list DeclGroupRef)
    (st : ReducePointerLevel) : Result ReducePointerLevel :=
  match Gs with
  | [] => Ok st
  | D :: Gs' => st' ← HandleTopLevelDecl D st; HandleTopLevelDecls Gs' st'
  end.

Definition Collect (Ctx : ASTContext) (Counter : Z) (QueryOnly : bool)
  : Result ReducePointerLevel :=
  HandleTopLevelDecls (TopLevelDecls Ctx) (newInstance Counter QueryOnly).

Definition runPass (Ctx : ASTContext) (Counter : Z) (QueryOnly : bool)
  : Result (ASTContext * ReducePointerLevel) :=
  st ← Collect Ctx Counter QueryOnly;
  HandleTranslationUnit Ctx st.

(** ** Specification-side notions *)

(** The registry set of a level (empty when the level has none). *)
Definition levelSet (st : ReducePointerLevel) (Level : Z) : DeclSet :=
  default [] (AllPtrDecls st !! Level).

Definition registeredAt (st : ReducePointerLevel) (Level : Z) (d : DeclId) : Prop :=
  d ∈ levelSet st Level.

(** Tier 1: the members of the maximum level that are still valid. *)
Definition tier1 (st : ReducePointerLevel) : list DeclId :=
  filter (λ d, d ∈ ValidDecls st) (levelSet st (MaxIndirectLevel st)).

(** Tier 2 at one level: valid and not address-taken. *)
Definition tier2At (st : ReducePointerLevel) (Level : Z) : list DeclId :=
  filter (λ d, d ∈ ValidDecls st ∧ d ∉ AddrTakenDecls st) (levelSet st Level).

(** The levels [n, n-1, ..., 1]. *)
Fixpoint descendingLevels (n : nat) : list Z :=
  match n with
  | O => []
  | S n' => Z.of_nat n :: descendingLevels n'
  end.

(** The selection order of the specification: Tier 1, then Tier 2 from
    level [MaxIndirectLevel - 1] down to level 1. *)
Definition candidates (st : ReducePointerLevel) : list DeclId :=
  tier1 st ++
  flat_map (tier2At st) (descendingLevels (Z.to_nat (MaxIndirectLevel st - 1))).

(** Eligibility as the glossary has it: registered, still valid, and not
    address-taken unless at the maximum level. *)
Definition eligible (st : ReducePointerLevel) (d : DeclId) : Prop :=
  (∃ Level, registeredAt st Level d) ∧
  d ∈ ValidDecls st ∧
  (registeredAt st (MaxIndirectLevel st) d ∨ d ∉ AddrTakenDecls st).

Definition eligibleSet (st : ReducePointerLevel) : gset DeclId :=
  filter (λ d, d ∈ levelSet st (MaxIndirectLevel st) ∨ d ∉ AddrTakenDecls st)
         (ValidDecls st).

(** What the driver observes of the selector: the count reported after
    analysis, and the declaration chosen for a given counter. *)
Definition queryCount (st : ReducePointerLevel) : Z :=
  ValidInstanceNum (doAnalysis st).

Definition selectedBy (st : ReducePointerLevel) (Counter : Z) : option DeclId :=
  TheDecl (doAnalysis (set_TransformationCounter Counter st)).

(** The selector's effect in closed form: the running count grows by the
    length of the scanned list, and the declaration at position
    [Counter - count] of that list, if any, becomes the selection. *)
Definition pick (l : list DeclId) (n k : Z) (old : option DeclId) : option DeclId :=
  if bool_decide (n < k ≤ n + Z.of_nat (length l))
  then l !! Z.to_nat (k - n - 1) else old.

Definition advance (l : list DeclId) (st : ReducePointerLevel) : ReducePointerLevel :=
  set_TheDecl (pick l (ValidInstanceNum st) (TransformationCounter st) (TheDecl st))
    (set_ValidInstanceNum (ValidInstanceNum st + Z.of_nat (length l)) st).

(** A state in which the selector has not run yet. *)
Definition unselected (st : ReducePointerLevel) : Prop :=
  TheDecl st = None ∧ ValidInstanceNum st = 0.

(** The registry invariant maintained by collection: every level set is
    duplicate-free, holds visited declarations only, and lies between 1
    and the maximum level; a declaration is registered at one level only;
    every visited declaration is registered and every valid one visited. *)
Record registry_ok (st : ReducePointerLevel) : Prop := {
  reg_nodup : ∀ Level, NoDup (levelSet st Level);
  reg_level : ∀ Level d, registeredAt st Level d →
              1 ≤ Level ≤ MaxIndirectLevel st;
  reg_visited : ∀ Level d, registeredAt st Level d → d ∈ VisitedDecls st;
  reg_unique : ∀ L1 L2 d,
      registeredAt st L1 d → registeredAt st L2 d → L1 = L2;
  reg_total : ∀ d, d ∈ VisitedDecls st → ∃ Level, registeredAt st Level d;
  reg_valid : ValidDecls st ⊆ VisitedDecls st
}.

(** The fields the collector never writes. *)
Record selection_frame (st st' : ReducePointerLevel) : Prop := {
  frame_TheDecl : TheDecl st' = TheDecl st;
  frame_TheRecordDecl : TheRecordDecl st' = TheRecordDecl st;
  frame_ValidInstanceNum : ValidInstanceNum st' = ValidInstanceNum st;
  frame_TransformationCounter : TransformationCounter st' = TransformationCounter st;
  frame_QueryInstanceOnly : QueryInstanceOnly st' = QueryInstanceOnly st;
  frame_TransError : TransError st' = TransError st;
  frame_TheRewriter : TheRewriter st' = TheRewriter st
}.

(** The state a visit of a fresh pointer declaration leads to. *)
Definition registered (CanonicalDD : DeclId) (IndirectLevel : Z)
    (st : ReducePointerLevel) : ReducePointerLevel :=
  let st := set_ValidDecls ({[CanonicalDD]} ∪ ValidDecls st) st in
  let st := set_VisitedDecls ({[CanonicalDD]} ∪ VisitedDecls st) st in
  let st := if bool_decide (IndirectLevel > MaxIndirectLevel st)
            then set_MaxIndirectLevel IndirectLevel st else st in
  addOneDecl CanonicalDD IndirectLevel st.

(** The shape of a left-hand side that [getRefDecl] can follow: through
    parentheses, casts, subscript bases and dereferences down to a
    reference or a member access. *)
Inductive ResolvableLhs : Expr -> Prop :=
| RL_DeclRef T D : ResolvableLhs (DeclRefExpr T D)
| RL_Member T Base M : ResolvableLhs (MemberExpr T Base M)
| RL_Paren T E : ResolvableLhs E -> ResolvableLhs (ParenExpr T E)
| RL_Cast T E : ResolvableLhs E -> ResolvableLhs (CastExpr T E)
| RL_Subscript T Base Idx :
    ResolvableLhs Base -> ResolvableLhs (ArraySubscriptExpr T Base Idx)
| RL_Deref T E : ResolvableLhs E -> ResolvableLhs (UnaryOperator T UO_Deref E).

(** The right-hand sides an assignment to a pointer may have without
    disqualifying its target. *)
Definition safeRhs (RHS : Expr) : Prop :=
  match IgnoreParenCasts RHS with
  | DeclRefExpr _ _ | UnaryOperator _ _ _ | ArraySubscriptExpr _ _ _ => True
  | _ => False
  end.

(** The operands whose address the collector tracks. *)
Definition trackedOperand (SubExpr : Expr) : Prop :=
  match IgnoreParenCasts SubExpr with
  | DeclRefExpr _ _ | MemberExpr _ _ _ => True
  | _ => False
  end.

(** The referent has the class the pass expects: a declarator behind a
    reference, a field behind a member access. *)
Definition wellKindedRef (E : Expr) : Prop :=
  match E with
  | DeclRefExpr _ D => isDeclaratorDeclKind (getKind D) = true
  | MemberExpr _ _ M => getKind M = Field
  | _ => True
  end.

(** The declaration an operand refers to, for a reference or a member
    access. *)
Definition referencedDecl (E : Expr) : option ValueDecl :=
  match E with
  | DeclRefExpr _ D => Some D
  | MemberExpr _ _ M => Some M
  | _ => None
  end.

(** The declaration [VisitDeclaratorDecl] is called with at a node. *)
Definition visitedDeclarator (N : ASTNode) : option ValueDecl :=
  match N with
  | NDecl (VarDecl DD _) | NDecl (FieldDecl DD) | NDecl (FunctionDecl DD _ _) =>
      Some DD
  | _ => None
  end.

(** The two names of the variadic-argument escape hatch. *)
Definition hasVAArgName (DD : ValueDecl) : Prop :=
  getNameAsString DD = "reg_save_area"%string ∨
  getNameAsString DD = "overflow_arg_area"%string.

(** The type whose pointer-ness decides registration: the declared type,
    or the base element type of a declared array. *)
Definition registrationType (DD : ValueDecl) : Ty :=
  if isArrayType (getType DD) then getArrayBaseElemType (getType DD)
  else getType DD.

(** A list of declarations in which a declaration of a deeper level
    always precedes one of a shallower level. *)
Definition levelDescending (st : ReducePointerLevel) (l : list DeclId) : Prop :=
  ∀ (i j : nat) d1 d2 L1 L2,
    l !! i = Some d1 → l !! j = Some d2 →
    registeredAt st L1 d1 → registeredAt st L2 d2 → L2 < L1 → (i < j)%nat.

(** ** Example programs *)

Module Examples.

Definition IntTy : Ty := BuiltinType "int".
Definition CharTy : Ty := BuiltinType "char".

Definition mkVar (P : DeclId) (Name : string) (T : Ty) : ValueDecl :=
  {| declPtr := P; getKind := Var; getNameAsString := Name; getType := T;
     getCanonicalDecl := P; getParent := 1%positive |}.

Definition mkFunction (P : DeclId) (Name : string) (T : Ty) : ValueDecl :=
  {| declPtr := P; getKind := Function; getNameAsString := Name; getType := T;
     getCanonicalDecl := P; getParent := 1%positive |}.

Definition noDiagnostics : DiagnosticsEngine :=
  {| SuppressAllDiagnostics := true; ErrorOccurred := false;
     FatalErrorOccurred := false |}.

(** [int **p; int *q; int main(void) { return **p + *q; }] *)
Definition p : ValueDecl := mkVar 2%positive "p" (PointerType (PointerType IntTy)).
Definition q : ValueDecl := mkVar 3%positive "q" (PointerType IntTy).
Definition main : ValueDecl := mkFunction 4%positive "main" IntTy.

Definition rvalue (E : Expr) : Expr := CastExpr (Expr_getType E) E.

Definition deref_p : Expr :=
  UnaryOperator (PointerType IntTy) UO_Deref
    (rvalue (DeclRefExpr (PointerType (PointerType IntTy)) p)).

Definition deref_deref_p : Expr :=
  UnaryOperator IntTy UO_Deref (rvalue deref_p).

Definition deref_q : Expr :=
  UnaryOperator IntTy UO_Deref (rvalue (DeclRefExpr (PointerType IntTy) q)).

Definition main_body : Stmt :=
  CompoundStmt
    [ReturnStmt (Some (BinaryOperator IntTy BO_Add
                         (rvalue deref_deref_p) (rvalue deref_q)))].

Definition objects_pq (P : DeclId) : option ValueDecl :=
  if bool_decide (P = 2%positive) then Some p
  else if bool_decide (P = 3%positive) then Some q
  else if bool_decide (P = 4%positive) then Some main
  else None.

Definition program_pq : ASTContext :=
  {| DeclObject := objects_pq;
     TopLevelDecls := [[VarDecl p None]; [VarDecl q None];
                       [FunctionDecl main [] (Some main_body)]];
     Diagnostics := noDiagnostics |}.

(** [int **p; int *q; int *r; void f(void) { &p; &q; }] *)
Definition r : ValueDecl := mkVar 5%positive "r" (PointerType IntTy).
Definition f : ValueDecl := mkFunction 6%positive "f" (BuiltinType "void").

Definition addr_of (E : Expr) : Expr :=
  UnaryOperator (PointerType (Expr_getType E)) UO_AddrOf E.

Definition ref_p : Expr := DeclRefExpr (PointerType (PointerType IntTy)) p.
Definition ref_q : Expr := DeclRefExpr (PointerType IntTy) q.
Definition ref_r : Expr := DeclRefExpr (PointerType IntTy) r.

Definition objects_addr (P : DeclId) : option ValueDecl :=
  if bool_decide (P = 2%positive) then Some p
  else if bool_decide (P = 3%positive) then Some q
  else if bool_decide (P = 5%positive) then Some r
  else if bool_decide (P = 6%positive) then Some f
  else None.

Definition program_addr : ASTContext :=
  {| DeclObject := objects_addr;
     TopLevelDecls :=
       [[VarDecl p None]; [VarDecl q None]; [VarDecl r None];
        [FunctionDecl f []
           (Some (CompoundStmt [ExprStmt (addr_of ref_p);
                                ExprStmt (addr_of ref_q)]))]];
     Diagnostics := noDiagnostics |}.

(** The state a successful collection ends in. *)
Definition state_of (res : Result ReducePointerLevel) : ReducePointerLevel :=
  match res with
  | Ok st => st
  | TransAssertFailed _ => newInstance 0 false
  end.

(** [int **g(void); int *h(void);] and the assignments
    [*g() = q], [*g() = 0] and [q = h()]. *)
Definition g : ValueDecl :=
  mkFunction 7%positive "g" (PointerType (PointerType IntTy)).
Definition h : ValueDecl := mkFunction 8%positive "h" (PointerType IntTy).

Definition call (Fn : ValueDecl) : Expr :=
  CallExpr (getType Fn) (rvalue (DeclRefExpr (getType Fn) Fn)) [].

Definition deref_call_g : Expr :=
  UnaryOperator (PointerType IntTy) UO_Deref (call g).

Definition null_pointer : Expr :=
  CastExpr (PointerType IntTy) (IntegerLiteral IntTy 0).

Definition assign (Lhs Rhs : Expr) : Expr :=
  BinaryOperator (Expr_getType Lhs) BO_Assign Lhs Rhs.

Definition objects_calls (P : DeclId) : option ValueDecl :=
  if bool_decide (P = 3%positive) then Some q
  else if bool_decide (P = 6%positive) then Some f
  else if bool_decide (P = 7%positive) then Some g
  else if bool_decide (P = 8%positive) then Some h
  else None.

Definition program_with (Body : list Stmt) : ASTContext :=
  {| DeclObject := objects_calls;
     TopLevelDecls :=
       [[VarDecl q None]; [FunctionDecl g [] None]; [FunctionDecl h [] None];
        [FunctionDecl f [] (Some (CompoundStmt Body))]];
     Diagnostics := noDiagnostics |}.

(** [... void f(void) { *g() = q; }] *)
Definition program_store_ref : ASTContext :=
  program_with [ExprStmt (assign deref_call_g (rvalue ref_q))].

(** [... void f(void) { *g() = 0; }] *)
Definition program_store_null : ASTContext :=
  program_with [ExprStmt (assign deref_call_g null_pointer)].

(** [... void f(void) { q = h(); }] *)
Definition program_assign_call : ASTContext :=
  program_with [ExprStmt (assign ref_q (call h))].

(** [char *reg_save_area; int *r;]: an ordinary variable that happens to
    carry one of the two names. *)
Definition reg_save_area : ValueDecl :=
  mkVar 9%positive "reg_save_area" (PointerType CharTy).

Definition program_named : ASTContext :=
  {| DeclObject := λ P, if bool_decide (P = 9%positive) then Some reg_save_area
                        else if bool_decide (P = 5%positive) then Some r else None;
     TopLevelDecls := [[VarDecl reg_save_area None]; [VarDecl r None]];
     Diagnostics := noDiagnostics |}.

Definition collected_named : ReducePointerLevel :=
  state_of (Collect program_named 1 false).

(** [int *q;] alone. *)
Definition program_q : ASTContext :=
  {| DeclObject := objects_calls;
     TopLevelDecls := [[VarDecl q None]];
     Diagnostics := noDiagnostics |}.

Definition collected_q : ReducePointerLevel :=
  state_of (Collect program_q 1 false).

Definition collected_pq : ReducePointerLevel :=
  state_of (Collect program_pq 1 false).

Definition collected_addr : ReducePointerLevel :=
  state_of (Collect program_addr 1 false).

Definition collected_pq_beyond : ReducePointerLevel :=
  state_of (Collect program_pq 3 false).

Definition collected_pq_query : ReducePointerLevel :=
  state_of (Collect program_pq 0 true).

End Examples.

(** ** Further specification-side notions *)

(** [n] pointer layers, and [n] array dimensions, around a type. *)
Definition pointerTo (n : nat) (T : Ty) : Ty := Nat.iter n PointerType T.
Definition arrayOf (n : nat) (T : Ty) : Ty := Nat.iter n ArrayType T.

(** An expression with no parenthesis, cast or subscript at its head. *)
Definition isStripped (E : Expr) : Prop :=
  match E with
  | ParenExpr _ _ | CastExpr _ _ | ArraySubscriptExpr _ _ _ => False
  | _ => True
  end.

(** A declaration the collector is willing to register: a variable or a
    field of pointer type (arrays reduced to their base element) that
    does not carry one of the two skipped names. *)
Definition registrable (DD : ValueDecl) : bool :=
  negb (isVAArgField DD) &&
  (bool_decide (getKind DD = Field) || bool_decide (getKind DD = Var)) &&
  isPointerType (registrationType DD).

(** The declaration whose address a node takes, if it is an address-of
    applied to a reference or a member access. *)
Definition addressTakenAt (N : ASTNode) : option ValueDecl :=
  match N with
  | NExpr (UnaryOperator _ UO_AddrOf SubExpr) =>
      referencedDecl (IgnoreParenCasts SubExpr)
  | _ => None
  end.

(** The node is an assignment to [Lhs], of pointer type, from a
    right-hand side that is none of the safe shapes. *)
Definition disqualifyingStore (N : ASTNode) (Lhs : Expr) : Prop :=
  ∃ T Opc RHS,
    N = NExpr (BinaryOperator T Opc Lhs RHS) ∧
    (isAssignmentOp Opc = true ∨ isCompoundAssignmentOp Opc = true) ∧
    isPointerType (Expr_getType Lhs) = true ∧
    ¬ safeRhs RHS.

(** A node the collector can visit without failing an assertion. *)
Definition collectable (N : ASTNode) : Prop :=
  match N with
  | NExpr (UnaryOperator _ UO_AddrOf SubExpr) =>
      wellKindedRef (IgnoreParenCasts SubExpr)
  | NExpr (BinaryOperator _ Opc Lhs RHS) =>
      (isAssignmentOp Opc = true ∨ isCompoundAssignmentOp Opc = true) →
      isPointerType (Expr_getType Lhs) = true →
      (¬ safeRhs RHS) → ∃ d, getRefDecl Lhs = Ok d
  | _ => True
  end.

(** The maximum level is 0 on an empty registry and is attained
    otherwise. *)
Definition max_level_ok (st : ReducePointerLevel) : Prop :=
  (MaxIndirectLevel st = 0 ∧ VisitedDecls st = ∅) ∨
  (0 < MaxIndirectLevel st ∧ ∃ d, registeredAt st (MaxIndirectLevel st) d).

(** What the collector only ever adds to. *)
Record grows (st st' : ReducePointerLevel) : Prop := {
  grows_visited : VisitedDecls st ⊆ VisitedDecls st';
  grows_addr : AddrTakenDecls st ⊆ AddrTakenDecls st';
  grows_max : MaxIndirectLevel st ≤ MaxIndirectLevel st';
  grows_level : ∀ L d, registeredAt st L d → registeredAt st' L d
}.

(** The declaration objects of the context are those of the translation
    unit: the canonical declaration of every declarator node is stored,
    with the kind and the parent of that node. *)
Definition declObjectsOfUnit (Ctx : ASTContext) : Prop :=
  ∀ N DD, N ∈ TranslationUnitNodes Ctx → visitedDeclarator N = Some DD →
    ∃ CD, DeclObject Ctx (getCanonicalDecl DD) = Some CD ∧
          getKind CD = getKind DD ∧ getParent CD = getParent DD.

(** The instance a completed apply run hands back: the record of a
    selected field is noted and the error field reflects the diagnostics
    state. *)
Definition applied (Ctx : ASTContext) (st : ReducePointerLevel) : ReducePointerLevel :=
  let st1 := setRecordDecl (setSuppressAllDiagnostics false Ctx) st in
  if hasErrorOccurred Ctx || hasFatalErrorOccurred Ctx
  then set_TransError TransInternalError st1 else st1.

Module Cases.

Import Examples.

(** [int **a[2][3];] *)
Definition a : ValueDecl :=
  mkVar 10%positive "a" (ArrayType (ArrayType (PointerType (PointerType IntTy)))).

(** [pa], a pointer to an array of three [int]. *)
Definition pa : ValueDecl :=
  mkVar 11%positive "pa" (PointerType (ArrayType IntTy)).

(** [struct S { char *buf; }; struct S s = { 0 };] *)
Definition buf : ValueDecl :=
  {| declPtr := 21%positive; getKind := Field; getNameAsString := "buf";
     getType := PointerType CharTy; getCanonicalDecl := 21%positive;
     getParent := 20%positive |}.

Definition s : ValueDecl := mkVar 22%positive "s" (RecordType 20%positive false).

Definition program_field (Err : bool) : ASTContext :=
  {| DeclObject := λ P, if bool_decide (P = 21%positive) then Some buf
                        else if bool_decide (P = 22%positive) then Some s else None;
     TopLevelDecls :=
       [[RecordDecl 20%positive [FieldDecl buf]];
        [VarDecl s (Some (InitListExpr (RecordType 20%positive false)
                            [null_pointer]))]];
     Diagnostics := {| SuppressAllDiagnostics := true; ErrorOccurred := Err;
                       FatalErrorOccurred := false |} |}.

Definition collected_field : ReducePointerLevel :=
  state_of (Collect (program_field false) 1 false).

(** [int **p; int *q; int main(void) ...] with the declarations given to
    the collector as one group. *)
Definition program_pq_one_group : ASTContext :=
  {| DeclObject := objects_pq;
     TopLevelDecls := [concat (TopLevelDecls program_pq)];
     Diagnostics := noDiagnostics |}.

Definition collected_store_ref : ReducePointerLevel :=
  state_of (Collect program_store_ref 1 false).

Definition collected_pq_zero : ReducePointerLevel :=
  state_of (Collect program_pq 0 false).

End Cases.

(** ** The selector in closed form *)

Lemma pick_nil n k old : pick [] n k old = old.
Proof.
  unfold pick. case_bool_decide as H; [|done]. simpl in H. lia.
Qed.

Lemma pick_app l1 l2 n k old :
  pick l2 (n + Z.of_nat (length l1)) k (pick l1 n k old) = pick (l1 ++ l2) n k old.
Proof.
  unfold pick. rewrite length_app, Nat2Z.inj_add.
  repeat case_bool_decide; try lia; try done.
  - rewrite lookup_app_r by lia. f_equal. lia.
  - rewrite lookup_app_l by lia. done.
Qed.

Lemma advance_nil st : advance [] st = st.
Proof.
  unfold advance. rewrite pick_nil. destruct st; simpl.
  unfold set_TheDecl, set_ValidInstanceNum; simpl. f_equal. lia.
Qed.

Lemma advance_app l1 l2 st : advance (l1 ++ l2) st = advance l2 (advance l1 st).
Proof.
  unfold advance; simpl. rewrite pick_app.
  unfold set_TheDecl, set_ValidInstanceNum; simpl.
  f_equal. rewrite length_app. lia.
Qed.

Lemma advance_cons d l st : advance (d :: l) st = advance l (advance [d] st).
Proof. apply (advance_app [d] l). Qed.

(** One counted iteration of either loop is [advance] on a singleton. *)
Lemma advance_singleton It st :
  advance [It] st =
  let st1 := set_ValidInstanceNum (ValidInstanceNum st + 1) st in
  if bool_decide (TransformationCounter st1 = ValidInstanceNum st1)
  then set_TheDecl (Some It) st1 else st1.
Proof.
  unfold advance, pick; simpl.
  repeat case_bool_decide; try lia.
  - replace (Z.to_nat _) with 0%nat by lia. done.
  - destruct st; done.
Qed.

Lemma max_level_loop_advance Decls st :
  max_level_loop Decls st = advance (filter (λ d, d ∈ ValidDecls st) Decls) st.
Proof.
  revert st. induction Decls as [|It Decls IH]; intros st; cbn [max_level_loop].
  - by rewrite advance_nil.
  - case_bool_decide as Hv; cbn [negb].
    + rewrite filter_cons_True by done.
      rewrite advance_cons, advance_singleton. cbn zeta.
      case_bool_decide; rewrite IH; done.
    + rewrite filter_cons_False by done. apply IH.
Qed.

Lemma lower_level_loop_advance Decls st :
  lower_level_loop Decls st =
  advance (filter (λ d, d ∈ ValidDecls st ∧ d ∉ AddrTakenDecls st) Decls) st.
Proof.
  revert st. induction Decls as [|It Decls IH]; intros st; cbn [lower_level_loop].
  - by rewrite advance_nil.
  - destruct (decide (It ∈ ValidDecls st ∧ It ∉ AddrTakenDecls st)) as [[Hv Ha]|Hn].
    + rewrite filter_cons_True by done.
      rewrite (bool_decide_eq_true_2 _ Hv), (bool_decide_eq_false_2 _ Ha).
      cbn [negb orb].
      rewrite advance_cons, advance_singleton. cbn zeta.
      case_bool_decide; rewrite IH; done.
    + rewrite filter_cons_False by done.
      destruct (decide (It ∈ ValidDecls st)) as [Hv|Hv].
      * assert (Ha : It ∈ AddrTakenDecls st)
          by (destruct (decide (It ∈ AddrTakenDecls st)); tauto).
        rewrite (bool_decide_eq_true_2 _ Hv), (bool_decide_eq_true_2 _ Ha).
        apply IH.
      * rewrite (bool_decide_eq_false_2 _ Hv). apply IH.
Qed.

Lemma levels_loop_advance n st :
  levels_loop n st = advance (flat_map (tier2At st) (descendingLevels n)) st.
Proof.
  revert st. induction n as [|n IH]; intros st.
  - simpl. by rewrite advance_nil.
  - cbn [levels_loop descendingLevels flat_map]. rewrite advance_app.
    assert (Hstep : match AllPtrDecls st !! Z.of_nat (S n) with
                    | Some Decls => lower_level_loop Decls st
                    | None => st
                    end = advance (tier2At st (Z.of_nat (S n))) st).
    { unfold tier2At, levelSet.
      destruct (AllPtrDecls st !! Z.of_nat (S n)) as [Decls|]; simpl.
      - apply lower_level_loop_advance.
      - by rewrite advance_nil. }
    rewrite Hstep, IH. done.
Qed.

Lemma doAnalysis_advance st : doAnalysis st = advance (candidates st) st.
Proof.
  unfold doAnalysis, candidates. rewrite advance_app.
  assert (Hstep : match AllPtrDecls st !! MaxIndirectLevel st with
                  | Some Decls => max_level_loop Decls st
                  | None => st
                  end = advance (tier1 st) st).
  { unfold tier1, levelSet.
    destruct (AllPtrDecls st !! MaxIndirectLevel st) as [Decls|]; simpl.
    - apply max_level_loop_advance.
    - by rewrite advance_nil. }
  rewrite Hstep, levels_loop_advance. done.
Qed.

Lemma queryCount_candidates st :
  queryCount st = ValidInstanceNum st + Z.of_nat (length (candidates st)).
Proof. unfold queryCount. by rewrite doAnalysis_advance. Qed.

Lemma selectedBy_candidates st k :
  unselected st →
  selectedBy st k =
  if bool_decide (1 ≤ k ≤ Z.of_nat (length (candidates st)))
  then candidates st !! Z.to_nat (k - 1) else None.
Proof.
  intros [Hd Hn]. unfold selectedBy. rewrite doAnalysis_advance.
  unfold advance, pick; simpl.
  change (candidates (set_TransformationCounter k st)) with (candidates st).
  rewrite Hd, Hn. repeat case_bool_decide; try lia; try done.
  f_equal. lia.
Qed.

(** ** Running a visitor *)

Lemma VisitAll_app Visit Ns1 Ns2 st :
  VisitAll Visit (Ns1 ++ Ns2) st = st' ← VisitAll Visit Ns1 st; VisitAll Visit Ns2 st'.
Proof.
  revert st. induction Ns1 as [|N Ns1 IH]; intros st; simpl; [done|].
  destruct (Visit N st) as [st1|msg]; simpl; [apply IH|done].
Qed.

Lemma VisitAll_preserves (P : ReducePointerLevel → Prop) Visit :
  (∀ N st st', P st → Visit N st = Ok st' → P st') →
  ∀ Ns st st', P st → VisitAll Visit Ns st = Ok st' → P st'.
Proof.
  intros Hstep Ns. induction Ns as [|N Ns IH]; intros st st' HP Hrun; simpl in Hrun.
  - by inversion Hrun; subst.
  - destruct (Visit N st) as [st1|msg] eqn:HN; simpl in Hrun; [|done].
    eapply IH; [|exact Hrun]. eapply Hstep; eauto.
Qed.

Lemma HandleTopLevelDecl_nodes D st :
  HandleTopLevelDecl D st =
  VisitAll PointerLevelCollectionVisitor.Visit (flat_map TraverseDecl D) st.
Proof.
  revert st. induction D as [|It D IH]; intros st; [done|].
  cbn [HandleTopLevelDecl flat_map]. rewrite VisitAll_app.
  destruct (VisitAll _ (TraverseDecl It) st); simpl; [apply IH|done].
Qed.

Lemma HandleTopLevelDecls_nodes Gs st :
  HandleTopLevelDecls Gs st =
  VisitAll PointerLevelCollectionVisitor.Visit (flat_map TraverseDecl (concat Gs)) st.
Proof.
  revert st. induction Gs as [|D Gs IH]; intros st; [done|].
  cbn [HandleTopLevelDecls concat]. rewrite flat_map_app, VisitAll_app.
  rewrite HandleTopLevelDecl_nodes.
  destruct (VisitAll _ (flat_map TraverseDecl D) st); simpl; [apply IH|done].
Qed.

Lemma Collect_nodes Ctx k q :
  Collect Ctx k q =
  VisitAll PointerLevelCollectionVisitor.Visit (TranslationUnitNodes Ctx) (newInstance k q).
Proof. apply HandleTopLevelDecls_nodes. Qed.

(** ** What one collection visit does *)

Lemma getPointerIndirectLevel_pos T :
  isPointerType T = true → getPointerIndirectLevel T > 0.
Proof.
  destruct T as [|P| |]; try done. intros _. unfold getPointerIndirectLevel; simpl.
  assert (H : ∀ Q (n : Z), 0 ≤ n → pointee_loop Q n > 0).
  { induction Q; intros n Hn; simpl; try lia. apply IHQ. lia. }
  apply H. lia.
Qed.

Lemma VisitDeclaratorDecl_cases DD st st' :
  VisitDeclaratorDecl DD st = Ok st' →
  st' = st ∨
  ∃ c lvl, isVAArgField DD = false ∧
           canonicalDeclaratorDecl DD = Some c ∧
           (c ∉ VisitedDecls st) ∧ (0 < lvl) ∧
           st' = registered c lvl st.
Proof.
  unfold VisitDeclaratorDecl.
  destruct (isVAArgField DD); [intros [= <-]; by left|].
  destruct (_ && _); [intros [= <-]; by left|].
  destruct (negb _); [intros [= <-]; by left|].
  destruct (canonicalDeclaratorDecl DD) as [c|]; [|done].
  destruct (decide (c ∈ VisitedDecls st)) as [Hin|Hnin]; [intros [= <-]; by left|].
  set (lvl := getPointerIndirectLevel _).
  unfold TransAssert.
  destruct (bool_decide (lvl > 0)) eqn:Hlvl; simpl; [|done].
  apply bool_decide_eq_true_1 in Hlvl.
  intros [= <-]. right. exists c, lvl. repeat split; try done. lia.
Qed.

Lemma VisitUnaryOperator_cases Opc SubExpr st st' :
  VisitUnaryOperator Opc SubExpr st = Ok st' →
  st' = st ∨
  ∃ d, Opc = UO_AddrOf ∧ trackedOperand SubExpr ∧
       getCanonicalDeclaratorDecl (IgnoreParenCasts SubExpr) = Ok d ∧
       st' = set_AddrTakenDecls ({[d]} ∪ AddrTakenDecls st) st.
Proof.
  unfold VisitUnaryOperator, trackedOperand.
  case_bool_decide as HO; simpl; [|intros [= <-]; by left].
  destruct (IgnoreParenCasts SubExpr) eqn:HE; simpl;
    try (intros [= <-]; by left).
  all: destruct (getCanonicalDeclaratorDecl _) as [d|] eqn:Hd; simpl; [|done].
  all: intros [= <-]; right; exists d; done.
Qed.

Lemma VisitBinaryOperator_cases Opc Lhs RHS st st' :
  VisitBinaryOperator Opc Lhs RHS st = Ok st' →
  st' = st ∨
  ∃ d, getRefDecl Lhs = Ok d ∧ ¬ safeRhs RHS ∧
       st' = set_ValidDecls (ValidDecls st ∖ {[d]}) st.
Proof.
  unfold VisitBinaryOperator, safeRhs.
  destruct (_ && _); [intros [= <-]; by left|].
  destruct (negb _); [intros [= <-]; by left|].
  destruct (IgnoreParenCasts RHS) eqn:HE; simpl;
    try (intros [= <-]; by left).
  all: destruct (getRefDecl Lhs) as [d|] eqn:Hd; simpl; [|done].
  all: intros [= <-]; right; exists d; auto.
Qed.

(** ** Invariants of collection *)

Lemma levelSet_addOneDecl c lvl st L :
  levelSet (addOneDecl c lvl st) L =
  if decide (L = lvl) then DeclSet_insert c (levelSet st lvl) else levelSet st L.
Proof.
  unfold levelSet, addOneDecl; simpl.
  destruct (decide (L = lvl)) as [->|Hne].
  - by rewrite lookup_insert_eq.
  - by rewrite lookup_insert_ne.
Qed.

Lemma levelSet_registered c lvl st L :
  levelSet (registered c lvl st) L =
  if decide (L = lvl) then DeclSet_insert c (levelSet st lvl) else levelSet st L.
Proof.
  unfold registered. cbn zeta. rewrite levelSet_addOneDecl.
  by case_bool_decide.
Qed.

Lemma elem_of_DeclSet_insert d c (S : list DeclId) :
  d ∈ DeclSet_insert c S ↔ d ∈ S ∨ d = c.
Proof.
  unfold DeclSet_insert. case_decide.
  - split; [auto|]. intros [?| ->]; done.
  - rewrite elem_of_app, list_elem_of_singleton. done.
Qed.

Lemma registeredAt_registered c lvl st L d :
  registeredAt (registered c lvl st) L d ↔
  registeredAt st L d ∨ (L = lvl ∧ d = c).
Proof.
  unfold registeredAt. rewrite levelSet_registered.
  case_decide as HL.
  - subst L. rewrite elem_of_DeclSet_insert. tauto.
  - tauto.
Qed.

Lemma MaxIndirectLevel_registered c lvl st :
  MaxIndirectLevel (registered c lvl st) = Z.max lvl (MaxIndirectLevel st).
Proof.
  unfold registered. cbn zeta. case_bool_decide; simpl in *; lia.
Qed.

Lemma VisitedDecls_registered c lvl st :
  VisitedDecls (registered c lvl st) = {[c]} ∪ VisitedDecls st.
Proof. unfold registered. cbn zeta. by case_bool_decide. Qed.

Lemma ValidDecls_registered c lvl st :
  ValidDecls (registered c lvl st) = {[c]} ∪ ValidDecls st.
Proof. unfold registered. cbn zeta. by case_bool_decide. Qed.

Lemma AddrTakenDecls_registered c lvl st :
  AddrTakenDecls (registered c lvl st) = AddrTakenDecls st.
Proof. unfold registered. cbn zeta. by case_bool_decide. Qed.

Lemma registry_ok_registered c lvl st :
  registry_ok st → c ∉ VisitedDecls st → 0 < lvl →
  registry_ok (registered c lvl st).
Proof.
  intros Hok Hc Hlvl.
  assert (Hfresh : ∀ L, ¬ registeredAt st L c).
  { intros L HL. apply Hc. eapply reg_visited; eauto. }
  split.
  - intros L. rewrite levelSet_registered. case_decide; [|apply Hok].
    unfold DeclSet_insert. case_decide; [apply Hok|].
    apply NoDup_app. split; [apply Hok|]. split; [|apply NoDup_singleton].
    intros x Hx ->%list_elem_of_singleton. done.
  - intros L d [Hd|[-> ->]]%registeredAt_registered;
      rewrite MaxIndirectLevel_registered.
    + pose proof (reg_level _ Hok _ _ Hd). lia.
    + lia.
  - intros L d [Hd|[-> ->]]%registeredAt_registered;
      rewrite VisitedDecls_registered.
    + pose proof (reg_visited _ Hok _ _ Hd). set_solver.
    + set_solver.
  - intros L1 L2 d [H1|[-> ->]]%registeredAt_registered
                   [H2|[-> E]]%registeredAt_registered; subst.
    + eapply reg_unique; eauto.
    + by destruct (Hfresh L1).
    + by destruct (Hfresh L2).
    + done.
  - intros d. rewrite VisitedDecls_registered.
    intros [->%elem_of_singleton|Hd]%elem_of_union.
    + exists lvl. apply registeredAt_registered. auto.
    + destruct (reg_total _ Hok _ Hd) as [L HL]. exists L.
      apply registeredAt_registered. auto.
  - rewrite VisitedDecls_registered, ValidDecls_registered.
    pose proof (reg_valid _ Hok) as Hsub.
    intros x. rewrite !elem_of_union. intros [?|?]; [by left|right; by apply Hsub].
Qed.

Lemma registry_ok_Visit N st st' :
  registry_ok st → PointerLevelCollectionVisitor.Visit N st = Ok st' →
  registry_ok st'.
Proof.
  intros Hok HN.
  assert (HD : ∀ DD, VisitDeclaratorDecl DD st = Ok st' → registry_ok st').
  { intros DD [->|(c & lvl & _ & _ & Hc & Hlvl & ->)]%VisitDeclaratorDecl_cases;
      [done|]. by apply registry_ok_registered. }
  destruct N as [[DD ?|DD|DD ? ?| |]|[]]; simpl in HN;
    try (by inversion HN; subst); try (by eapply HD).
  - apply VisitUnaryOperator_cases in HN as [->|(d & _ & _ & _ & ->)]; [done|].
    destruct Hok; by split.
  - apply VisitBinaryOperator_cases in HN as [->|(d & _ & _ & ->)]; [done|].
    pose proof (reg_valid _ Hok) as Hsub.
    destruct Hok; split; try done. simpl.
    intros x [Hx _]%elem_of_difference. by apply Hsub.
Qed.

Lemma selection_frame_refl st : selection_frame st st.
Proof. by split. Qed.

Lemma selection_frame_trans st1 st2 st3 :
  selection_frame st1 st2 → selection_frame st2 st3 → selection_frame st1 st3.
Proof. intros [] []; split; congruence. Qed.

Lemma selection_frame_Visit N st st' :
  PointerLevelCollectionVisitor.Visit N st = Ok st' → selection_frame st st'.
Proof.
  intros HN.
  assert (HD : ∀ DD, VisitDeclaratorDecl DD st = Ok st' → selection_frame st st').
  { intros DD [->|(c & lvl & _ & _ & Hc & Hlvl & ->)]%VisitDeclaratorDecl_cases;
      [apply selection_frame_refl|].
    unfold registered. cbn zeta. by case_bool_decide. }
  destruct N as [[DD ?|DD|DD ? ?| |]|[]]; simpl in HN;
    try (by inversion HN; subst; apply selection_frame_refl); try (by eapply HD).
  - by apply VisitUnaryOperator_cases in HN as [->|(d & _ & _ & _ & ->)].
  - by apply VisitBinaryOperator_cases in HN as [->|(d & _ & _ & ->)].
Qed.

Lemma registry_ok_newInstance k q : registry_ok (newInstance k q).
Proof.
  split; unfold registeredAt, levelSet; simpl; try setoid_rewrite lookup_empty;
    simpl; try set_solver.
  intros. apply NoDup_nil_2.
Qed.

(** Every state reached by collecting a translation unit satisfies the
    registry invariant, and still has the selection fields of the fresh
    instance. *)
Lemma Collect_registry_ok Ctx k q st :
  Collect Ctx k q = Ok st → registry_ok st.
Proof.
  rewrite Collect_nodes. apply VisitAll_preserves.
  - intros N s s'. apply registry_ok_Visit.
  - apply registry_ok_newInstance.
Qed.

Lemma Collect_selection_frame Ctx k q st :
  Collect Ctx k q = Ok st → selection_frame (newInstance k q) st.
Proof.
  rewrite Collect_nodes.
  apply (VisitAll_preserves (selection_frame (newInstance k q))).
  - intros N s s' Hs HN. eapply selection_frame_trans; [exact Hs|].
    by eapply selection_frame_Visit.
  - apply selection_frame_refl.
Qed.

Lemma Collect_unselected Ctx k q st :
  Collect Ctx k q = Ok st → unselected st.
Proof. intros [Hd _ Hn _ _ _ _]%Collect_selection_frame. by split. Qed.

(** ** The selection order *)

Lemma elem_of_descendingLevels n L :
  L ∈ descendingLevels n ↔ 1 ≤ L ≤ Z.of_nat n.
Proof.
  induction n as [|n IH]; cbn [descendingLevels].
  - rewrite elem_of_nil. lia.
  - rewrite elem_of_cons, IH. lia.
Qed.

Lemma elem_of_tier1 st d :
  d ∈ tier1 st ↔ registeredAt st (MaxIndirectLevel st) d ∧ d ∈ ValidDecls st.
Proof. unfold tier1, registeredAt. rewrite list_elem_of_filter. tauto. Qed.

Lemma elem_of_tier2At st L d :
  d ∈ tier2At st L ↔
  registeredAt st L d ∧ d ∈ ValidDecls st ∧ d ∉ AddrTakenDecls st.
Proof. unfold tier2At, registeredAt. rewrite list_elem_of_filter. tauto. Qed.

Lemma elem_of_tier2 st n d :
  d ∈ flat_map (tier2At st) (descendingLevels n) ↔
  ∃ L, 1 ≤ L ≤ Z.of_nat n ∧ registeredAt st L d ∧
       d ∈ ValidDecls st ∧ d ∉ AddrTakenDecls st.
Proof.
  rewrite list_elem_of_In, in_flat_map. split.
  - intros (L & HL & Hd). exists L.
    apply list_elem_of_In, elem_of_descendingLevels in HL.
    apply list_elem_of_In, elem_of_tier2At in Hd. tauto.
  - intros (L & HL & Hd). exists L. split.
    + by apply list_elem_of_In, elem_of_descendingLevels.
    + by apply list_elem_of_In, elem_of_tier2At.
Qed.

(** Membership in the selection order, for any state. *)
Lemma elem_of_candidates st d :
  d ∈ candidates st ↔
  (registeredAt st (MaxIndirectLevel st) d ∧ d ∈ ValidDecls st) ∨
  (∃ L, 1 ≤ L < MaxIndirectLevel st ∧ registeredAt st L d ∧
        d ∈ ValidDecls st ∧ d ∉ AddrTakenDecls st).
Proof.
  unfold candidates. rewrite elem_of_app, elem_of_tier1, elem_of_tier2.
  split; (intros [H|(L & HL & H)]; [by left|right; exists L; split; [lia|done]]).
Qed.

Lemma candidates_valid st d : d ∈ candidates st → d ∈ ValidDecls st.
Proof. rewrite elem_of_candidates. intros [[_ ?]|(L & _ & _ & ? & _)]; done. Qed.

Lemma NoDup_tier2 st n :
  registry_ok st → NoDup (flat_map (tier2At st) (descendingLevels n)).
Proof.
  intros Hok. induction n as [|n IH]; cbn [descendingLevels flat_map].
  - apply NoDup_nil_2.
  - apply NoDup_app. split; [|split; [|done]].
    + apply NoDup_filter, Hok.
    + intros d [H1 _]%elem_of_tier2At (L & HL & H2 & _)%elem_of_tier2.
      pose proof (reg_unique _ Hok _ _ _ H1 H2). lia.
Qed.

Lemma NoDup_candidates st : registry_ok st → NoDup (candidates st).
Proof.
  intros Hok. unfold candidates. apply NoDup_app. split; [|split].
  - apply NoDup_filter, Hok.
  - intros d [H1 _]%elem_of_tier1 (L & HL & H2 & _)%elem_of_tier2.
    pose proof (reg_unique _ Hok _ _ _ H1 H2). lia.
  - by apply NoDup_tier2.
Qed.

Lemma candidates_eligible st d :
  registry_ok st → d ∈ candidates st ↔ eligible st d.
Proof.
  intros Hok. rewrite elem_of_candidates. unfold eligible. split.
  - intros [[H1 H2]|(L & HL & H1 & H2 & H3)]; eauto 6.
  - intros ((L & HL) & Hv & [Hm|Ha]); [by left|].
    destruct (decide (L = MaxIndirectLevel st)) as [->|Hne]; [by left|].
    right. exists L. pose proof (reg_level _ Hok _ _ HL).
    repeat split; try done; lia.
Qed.

Lemma elem_of_eligibleSet st d :
  registry_ok st → d ∈ eligibleSet st ↔ eligible st d.
Proof.
  intros Hok. unfold eligibleSet, eligible, registeredAt.
  rewrite elem_of_filter. split.
  - intros [H1 H2]. split; [|done].
    apply (reg_total _ Hok), (reg_valid _ Hok), H2.
  - tauto.
Qed.

Lemma size_eligibleSet st :
  registry_ok st → size (eligibleSet st) = length (candidates st).
Proof.
  intros Hok. unfold size, set_size. simpl. apply Permutation_length.
  apply NoDup_Permutation.
  - apply NoDup_elements.
  - by apply NoDup_candidates.
  - intros d. rewrite elem_of_elements, elem_of_eligibleSet, candidates_eligible; done.
Qed.

(** The position of a declaration in the selection order. *)
Lemma selectedBy_lookup st k d :
  unselected st →
  selectedBy st k = Some d ↔
  1 ≤ k ∧ candidates st !! Z.to_nat (k - 1) = Some d.
Proof.
  intros Hun. rewrite selectedBy_candidates by done.
  case_bool_decide as Hk; split.
  - intros H. split; [lia|done].
  - tauto.
  - done.
  - intros [H1 H2]. apply lookup_lt_Some in H2. lia.
Qed.

Lemma selectedBy_candidate st k d :
  unselected st → selectedBy st k = Some d → d ∈ candidates st.
Proof.
  intros Hun [_ H]%selectedBy_lookup; [|done].
  apply list_elem_of_lookup. eauto.
Qed.

Lemma candidate_selectedBy st d :
  unselected st → d ∈ candidates st →
  ∃ k, 1 ≤ k ≤ Z.of_nat (length (candidates st)) ∧ selectedBy st k = Some d.
Proof.
  intros Hun [i Hi]%list_elem_of_lookup.
  pose proof (lookup_lt_Some _ _ _ Hi).
  exists (Z.of_nat i + 1). split; [lia|].
  apply selectedBy_lookup; [done|]. split; [lia|].
  replace (Z.to_nat _) with i by lia. done.
Qed.

(** Within the selection order, deeper levels come first. *)
Lemma levelDescending_app st l1 l2 :
  levelDescending st l1 → levelDescending st l2 →
  (∀ d1 d2 L1 L2, d1 ∈ l1 → d2 ∈ l2 →
      registeredAt st L1 d1 → registeredAt st L2 d2 → L2 ≤ L1) →
  levelDescending st (l1 ++ l2).
Proof.
  intros H1 H2 H12 i j d1 d2 L1 L2 Hi Hj HL1 HL2 Hlt.
  apply lookup_app_Some in Hi as [Hi|[Hil Hi]];
    apply lookup_app_Some in Hj as [Hj|[Hjl Hj]].
  - eapply H1; eauto.
  - apply lookup_lt_Some in Hi. lia.
  - assert (L1 ≤ L2); [|lia].
    eapply (H12 d2 d1); eauto; apply list_elem_of_lookup; eauto.
  - assert (i - length l1 < j - length l1)%nat; [|lia]. eapply H2; eauto.
Qed.

Lemma levelDescending_same st l L :
  registry_ok st → (∀ d, d ∈ l → registeredAt st L d) → levelDescending st l.
Proof.
  intros Hok Hl i j d1 d2 L1 L2 Hi Hj HL1 HL2 Hlt.
  assert (L1 = L) by (eapply (reg_unique _ Hok); eauto;
                      apply Hl, list_elem_of_lookup; eauto).
  assert (L2 = L) by (eapply (reg_unique _ Hok); eauto;
                      apply Hl, list_elem_of_lookup; eauto).
  lia.
Qed.

Lemma levelDescending_tier2 st n :
  registry_ok st → levelDescending st (flat_map (tier2At st) (descendingLevels n)).
Proof.
  intros Hok. induction n as [|n IH]; cbn [descendingLevels flat_map].
  - intros i j d1 d2 L1 L2 Hi. by rewrite lookup_nil in Hi.
  - apply levelDescending_app; [|done|].
    + apply (levelDescending_same _ _ (Z.of_nat (S n))); [done|].
      by intros d [? _]%elem_of_tier2At.
    + intros d1 d2 L1 L2 [H1 _]%elem_of_tier2At (L & HL & H2 & _)%elem_of_tier2 HL1 HL2.
      rewrite (reg_unique _ Hok _ _ _ HL1 H1), (reg_unique _ Hok _ _ _ HL2 H2). lia.
Qed.

Lemma levelDescending_candidates st :
  registry_ok st → levelDescending st (candidates st).
Proof.
  intros Hok. unfold candidates. apply levelDescending_app.
  - apply (levelDescending_same _ _ (MaxIndirectLevel st)); [done|].
    by intros d [? _]%elem_of_tier1.
  - by apply levelDescending_tier2.
  - intros d1 d2 L1 L2 [H1 _]%elem_of_tier1 (L & HL & H2 & _)%elem_of_tier2 HL1 HL2.
    rewrite (reg_unique _ Hok _ _ _ HL1 H1), (reg_unique _ Hok _ _ _ HL2 H2). lia.
Qed.

(** ** The selector against the specification *)

(** C1.  After collection, the count is the number of valid declarations
    at the maximum level plus, for each level from the maximum minus one
    down to 1, the number of valid and not address-taken declarations at
    that level.  A declaration registered at the maximum level
    is picked by some index exactly when it is still in ValidSet, whether
    or not its address was taken; a declaration registered at a lower
    level is picked by some index exactly when it is in ValidSet and not
    in AddressTakenSet; every pick is a registered, valid declaration of
    a level between 1 and the maximum; and a declaration of a deeper
    level is always picked by a smaller index than one of a shallower
    level. *)
Theorem selection_two_tiers Ctx k q st :
  Collect Ctx k q = Ok st →
  queryCount st =
    Z.of_nat (length (tier1 st)) +
    Z.of_nat (length (flat_map (tier2At st)
                        (descendingLevels (Z.to_nat (MaxIndirectLevel st - 1))))) ∧
  (∀ d, registeredAt st (MaxIndirectLevel st) d →
        (∃ i, 1 ≤ i ≤ queryCount st ∧ selectedBy st i = Some d) ↔
        d ∈ ValidDecls st) ∧
  (∀ d, registeredAt st (MaxIndirectLevel st) d → d ∈ ValidDecls st →
        d ∈ AddrTakenDecls st →
        ∃ i, 1 ≤ i ≤ queryCount st ∧ selectedBy st i = Some d) ∧
  (∀ d L, registeredAt st L d → L < MaxIndirectLevel st →
        (∃ i, selectedBy st i = Some d) ↔
        (d ∈ ValidDecls st ∧ d ∉ AddrTakenDecls st)) ∧
  (∀ d L, registeredAt st L d → L < MaxIndirectLevel st →
        d ∈ AddrTakenDecls st → ∀ i, selectedBy st i ≠ Some d) ∧
  (∀ d i, selectedBy st i = Some d →
        ∃ L, 1 ≤ L ≤ MaxIndirectLevel st ∧ registeredAt st L d ∧
             d ∈ ValidDecls st) ∧
  (∀ i j d1 d2 L1 L2,
        selectedBy st i = Some d1 → selectedBy st j = Some d2 →
        registeredAt st L1 d1 → registeredAt st L2 d2 → L2 < L1 → i < j).
Proof.
  intros Hc.
  pose proof (Collect_registry_ok _ _ _ _ Hc) as Hok.
  pose proof (Collect_unselected _ _ _ _ Hc) as Hun.
  assert (Hcount : queryCount st = Z.of_nat (length (candidates st))).
  { rewrite queryCount_candidates. destruct Hun as [_ ->]. lia. }
  assert (Hmax : ∀ d, registeredAt st (MaxIndirectLevel st) d → d ∈ ValidDecls st →
                      ∃ i, 1 ≤ i ≤ queryCount st ∧ selectedBy st i = Some d).
  { intros d Hd Hv. rewrite Hcount. apply candidate_selectedBy; [done|].
    apply elem_of_candidates. by left. }
  assert (Hlow : ∀ d L, registeredAt st L d → L < MaxIndirectLevel st →
                 (∃ i, selectedBy st i = Some d) ↔
                 (d ∈ ValidDecls st ∧ d ∉ AddrTakenDecls st)).
  { intros d L Hd HL. split.
    - intros [i Hi]. apply selectedBy_candidate, elem_of_candidates in Hi; [|done].
      destruct Hi as [[Hm _]|(L' & _ & _ & Hv & Ha)]; [|done].
      pose proof (reg_unique _ Hok _ _ _ Hd Hm). lia.
    - intros [Hv Ha].
      destruct (candidate_selectedBy st d Hun) as (i & _ & Hi); [|by exists i].
      apply elem_of_candidates. right. exists L.
      pose proof (reg_level _ Hok _ _ Hd). repeat split; try done; lia. }
  split_and!.
  - rewrite Hcount. unfold candidates. rewrite length_app. lia.
  - intros d Hd. split; [|by apply Hmax].
    intros (i & _ & Hi). by eapply candidates_valid, selectedBy_candidate.
  - intros d Hd Hv _. by apply Hmax.
  - done.
  - intros d L Hd HL Ha i Hi.
    destruct (proj1 (Hlow d L Hd HL)) as [_ Hna]; [by exists i|done].
  - intros d i Hi. apply selectedBy_candidate in Hi; [|done].
    pose proof (candidates_valid _ _ Hi) as Hv.
    apply elem_of_candidates in Hi as [[Hm _]|(L & HL & Hd & _)].
    + exists (MaxIndirectLevel st). pose proof (reg_level _ Hok _ _ Hm). done.
    + exists L. repeat split; try done; lia.
  - intros i j d1 d2 L1 L2 [Hi1 Hi]%selectedBy_lookup [Hj1 Hj]%selectedBy_lookup
      HL1 HL2 Hlt; try done.
    pose proof (levelDescending_candidates st Hok _ _ _ _ _ _ Hi Hj HL1 HL2 Hlt).
    lia.
Qed.

Lemma selection_two_tiers_witness :
  Collect Examples.program_addr 1 false = Ok Examples.collected_addr ∧
  (∀ d, registeredAt Examples.collected_addr
          (MaxIndirectLevel Examples.collected_addr) d →
        d ∈ ValidDecls Examples.collected_addr →
        d ∈ AddrTakenDecls Examples.collected_addr →
        ∃ i, 1 ≤ i ≤ queryCount Examples.collected_addr ∧
             selectedBy Examples.collected_addr i = Some d).
Proof.
  split; [vm_compute; reflexivity|].
  apply (proj1 (proj2 (proj2
           (selection_two_tiers Examples.program_addr 1 false Examples.collected_addr
              ltac:(vm_compute; reflexivity))))).
Defined.

(** C2.  After collection, the count reported by the selector is the
    number of eligible declarations: the selection order lists every
    eligible declaration once and nothing else.  Every index from 1 to
    the count picks an eligible declaration, different indices pick
    different declarations, and every eligible declaration is picked by
    exactly one index. *)
Theorem selection_bijection Ctx k q st :
  Collect Ctx k q = Ok st →
  queryCount st = Z.of_nat (size (eligibleSet st)) ∧
  (∀ d, d ∈ eligibleSet st ↔ eligible st d) ∧
  (queryCount st = Z.of_nat (length (candidates st)) ∧
   NoDup (candidates st) ∧
   ∀ d, d ∈ candidates st ↔ eligible st d) ∧
  (∀ i, 1 ≤ i ≤ queryCount st →
        ∃ d, selectedBy st i = Some d ∧ eligible st d) ∧
  (∀ i j d, selectedBy st i = Some d → selectedBy st j = Some d → i = j) ∧
  (∀ d, eligible st d →
        ∃ i, 1 ≤ i ≤ queryCount st ∧ selectedBy st i = Some d ∧
             ∀ j, selectedBy st j = Some d → j = i) ∧
  (∀ i d, selectedBy st i = Some d → 1 ≤ i ≤ queryCount st ∧ eligible st d).
Proof.
  intros Hc.
  pose proof (Collect_registry_ok _ _ _ _ Hc) as Hok.
  pose proof (Collect_unselected _ _ _ _ Hc) as Hun.
  assert (Hcount : queryCount st = Z.of_nat (length (candidates st))).
  { rewrite queryCount_candidates. destruct Hun as [_ ->]. lia. }
  assert (Hinj : ∀ i j d, selectedBy st i = Some d → selectedBy st j = Some d → i = j).
  { intros i j d [Hi1 Hi]%selectedBy_lookup [Hj1 Hj]%selectedBy_lookup; try done.
    pose proof (NoDup_lookup _ _ _ _ (NoDup_candidates _ Hok) Hi Hj). lia. }
  split; [by rewrite size_eligibleSet|].
  split; [intros d; by apply elem_of_eligibleSet|].
  split; [split; [done|split; [by apply NoDup_candidates|]];
          intros d; by apply candidates_eligible|].
  split; [|split; [done|split]].
  - intros i Hi.
    destruct (lookup_lt_is_Some_2 (candidates st) (Z.to_nat (i - 1))) as [d Hd]; [lia|].
    exists d. split.
    + apply selectedBy_lookup; [done|]. split; [lia|done].
    + apply candidates_eligible; [done|]. apply list_elem_of_lookup. eauto.
  - intros d Hd%candidates_eligible; [|done].
    destruct (candidate_selectedBy st d Hun Hd) as (i & Hi & Hs).
    exists i. rewrite Hcount. repeat split; try done; try lia.
    intros j Hj. by eapply Hinj.
  - intros i d Hs. split.
    + apply selectedBy_lookup in Hs as [H1 H2]; [|done].
      apply lookup_lt_Some in H2. lia.
    + apply candidates_eligible; [done|]. by eapply selectedBy_candidate.
Qed.

Lemma selection_bijection_witness :
  Collect Examples.program_addr 1 false = Ok Examples.collected_addr ∧
  queryCount Examples.collected_addr =
    Z.of_nat (size (eligibleSet Examples.collected_addr)).
Proof.
  split; [vm_compute; reflexivity|].
  apply (selection_bijection Examples.program_addr 1 false Examples.collected_addr).
  vm_compute; reflexivity.
Defined.

(** ** The collector against the specification *)

Lemma collection_Visit_stable N st st' d :
  PointerLevelCollectionVisitor.Visit N st = Ok st' → d ∈ VisitedDecls st →
  d ∈ VisitedDecls st' ∧
  (∀ L, registeredAt st' L d ↔ registeredAt st L d) ∧
  (d ∈ ValidDecls st' → d ∈ ValidDecls st).
Proof.
  intros HN Hd.
  assert (HD : ∀ DD, VisitDeclaratorDecl DD st = Ok st' →
               d ∈ VisitedDecls st' ∧
               (∀ L, registeredAt st' L d ↔ registeredAt st L d) ∧
               (d ∈ ValidDecls st' → d ∈ ValidDecls st)).
  { intros DD [->|(c & lvl & _ & _ & Hc & Hlvl & ->)]%VisitDeclaratorDecl_cases;
      [done|].
    assert (d ≠ c) by (intros ->; done).
    rewrite VisitedDecls_registered, ValidDecls_registered. split_and!.
    - apply elem_of_union. by right.
    - intros L. rewrite registeredAt_registered. tauto.
    - intros [->%elem_of_singleton|?]%elem_of_union; done. }
  destruct N as [[DD ?|DD|DD ? ?| |]|[]]; simpl in HN;
    try (by inversion HN; subst); try (by eapply HD).
  - by apply VisitUnaryOperator_cases in HN as [->|(d' & _ & _ & _ & ->)].
  - apply VisitBinaryOperator_cases in HN as [->|(d' & _ & _ & ->)]; [done|].
    split_and!; try done. simpl. by intros [? _]%elem_of_difference.
Qed.

Lemma collection_stable Ns st st' d :
  VisitAll PointerLevelCollectionVisitor.Visit Ns st = Ok st' →
  d ∈ VisitedDecls st →
  d ∈ VisitedDecls st' ∧
  (∀ L, registeredAt st' L d ↔ registeredAt st L d) ∧
  (d ∈ ValidDecls st' → d ∈ ValidDecls st).
Proof.
  intros Hrun Hd.
  apply (VisitAll_preserves
           (λ s, d ∈ VisitedDecls s ∧
                 (∀ L, registeredAt s L d ↔ registeredAt st L d) ∧
                 (d ∈ ValidDecls s → d ∈ ValidDecls st))
           _ ) with (Ns := Ns) (st := st) (st' := st') in Hrun; [done| |done].
  intros N s s' (Hv & HL & Hval) HN.
  destruct (collection_Visit_stable _ _ _ d HN Hv) as (Hv' & HL' & Hval').
  split_and!; [done| |tauto].
  intros L. rewrite HL'. apply HL.
Qed.

Lemma not_valid_not_selected st d i :
  unselected st → d ∉ ValidDecls st → selectedBy st i ≠ Some d.
Proof.
  intros Hun Hd Hs. apply Hd. by eapply candidates_valid, selectedBy_candidate.
Qed.

Lemma not_valid_not_eligible st d : d ∉ ValidDecls st → ¬ eligible st d.
Proof. intros Hd (_ & Hv & _). done. Qed.

Lemma collection_frame Ns st st' :
  VisitAll PointerLevelCollectionVisitor.Visit Ns st = Ok st' →
  selection_frame st st'.
Proof.
  apply (VisitAll_preserves (selection_frame st)).
  - intros N s s' Hs HN. eapply selection_frame_trans; [exact Hs|].
    by eapply selection_frame_Visit.
  - apply selection_frame_refl.
Qed.

(** C3.  An assignment, plain or compound, to a left-hand side of pointer
    type leaves the whole instance, ValidSet included, unchanged when its
    right-hand side is, under parentheses and casts, a reference, a unary
    operator or a subscript.  With any other right-hand side the
    declaration the left-hand side resolves to is erased from ValidSet
    and nothing else changes; that declaration is then not eligible and
    no index selects it, and when it had been registered before, this
    stays so for whatever the collector visits afterwards. *)
Theorem assignment_visit Opc Lhs RHS st :
  isAssignmentOp Opc = true ∨ isCompoundAssignmentOp Opc = true →
  isPointerType (Expr_getType Lhs) = true →
  (safeRhs RHS → VisitBinaryOperator Opc Lhs RHS st = Ok st) ∧
  ((¬ safeRhs RHS) → ∀ d, getRefDecl Lhs = Ok d →
     VisitBinaryOperator Opc Lhs RHS st =
       Ok (set_ValidDecls (ValidDecls st ∖ {[d]}) st) ∧
     (d ∉ ValidDecls (set_ValidDecls (ValidDecls st ∖ {[d]}) st)) ∧
     (¬ eligible (set_ValidDecls (ValidDecls st ∖ {[d]}) st) d) ∧
     (unselected st →
      ∀ i, selectedBy (set_ValidDecls (ValidDecls st ∖ {[d]}) st) i ≠ Some d) ∧
     (d ∈ VisitedDecls st → ∀ Ns st',
        VisitAll PointerLevelCollectionVisitor.Visit Ns
          (set_ValidDecls (ValidDecls st ∖ {[d]}) st) = Ok st' →
        (d ∉ ValidDecls st') ∧ (¬ eligible st' d) ∧
        (unselected st → ∀ i, selectedBy st' i ≠ Some d))).
Proof.
  intros Hop Hptr.
  assert (Hguard : negb (isAssignmentOp Opc) && negb (isCompoundAssignmentOp Opc) = false).
  { destruct Hop as [-> | ->]; simpl; [done|]. by rewrite andb_false_r. }
  unfold VisitBinaryOperator. rewrite Hguard, Hptr. cbn [negb].
  unfold safeRhs. split.
  - intros Hsafe. by destruct (IgnoreParenCasts RHS).
  - intros Hunsafe d Hd.
    set (st1 := set_ValidDecls (ValidDecls st ∖ {[d]}) st).
    assert (Hgone : d ∉ ValidDecls st1).
    { simpl. intros [_ Hn]%elem_of_difference. apply Hn. by apply elem_of_singleton. }
    split_and!.
    + destruct (IgnoreParenCasts RHS); simpl in *; try tauto; by rewrite Hd.
    + done.
    + by apply not_valid_not_eligible.
    + intros Hun i. apply not_valid_not_selected; [|done]. apply Hun.
    + intros Hvis Ns st' Hrun.
      destruct (collection_stable _ _ _ d Hrun Hvis) as (_ & _ & Hval).
      assert (d ∉ ValidDecls st') by (intros ?; by apply Hgone, Hval).
      split_and!; [done|by apply not_valid_not_eligible|].
      intros Hun i. apply not_valid_not_selected; [|done].
      destruct (collection_frame _ _ _ Hrun) as [HT _ HV _ _ _ _].
      destruct Hun as [? ?]. split; [by rewrite HT|by rewrite HV].
Qed.

Lemma assignment_visit_witness :
  (isAssignmentOp BO_Assign = true ∨ isCompoundAssignmentOp BO_Assign = true) ∧
  isPointerType (Expr_getType Examples.ref_q) = true ∧
  (¬ safeRhs (Examples.call Examples.h)) ∧
  getRefDecl Examples.ref_q = Ok 3%positive ∧
  VisitBinaryOperator BO_Assign Examples.ref_q (Examples.call Examples.h)
    Examples.collected_q
  = Ok (set_ValidDecls (ValidDecls Examples.collected_q ∖ {[3%positive]})
          Examples.collected_q).
Proof.
  split; [left; reflexivity|]. split; [reflexivity|].
  split; [exact (fun H => H)|]. split; [reflexivity|].
  apply (proj2 (assignment_visit BO_Assign Examples.ref_q
                  (Examples.call Examples.h) Examples.collected_q
                  (or_introl eq_refl) eq_refl)
           (fun H => H) 3%positive eq_refl).
Defined.

Lemma trackedOperand_referencedDecl SubExpr :
  trackedOperand SubExpr ↔ is_Some (referencedDecl (IgnoreParenCasts SubExpr)).
Proof.
  unfold trackedOperand. destruct (IgnoreParenCasts SubExpr); simpl;
    split; try done; try (by intros [? ?]); eauto.
Qed.

Lemma getCanonicalDeclaratorDecl_Ok E d :
  getCanonicalDeclaratorDecl E = Ok d →
  ∃ DD, referencedDecl E = Some DD ∧ wellKindedRef E ∧ d = getCanonicalDecl DD.
Proof.
  unfold getCanonicalDeclaratorDecl, canonicalDeclaratorDecl, TransAssert.
  destruct E as [T D|T B M| | | | | | | | |]; simpl; try done.
  - destruct (isDeclaratorDeclKind (getKind D)) eqn:HK; simpl; [|done].
    rewrite HK. intros [= <-]. eauto.
  - case_bool_decide as HK; simpl; [|done]. rewrite HK. simpl.
    intros [= <-]. eauto.
Qed.

Lemma getCanonicalDeclaratorDecl_wellKinded E DD :
  referencedDecl E = Some DD → wellKindedRef E →
  getCanonicalDeclaratorDecl E = Ok (getCanonicalDecl DD).
Proof.
  unfold getCanonicalDeclaratorDecl, canonicalDeclaratorDecl, TransAssert.
  destruct E as [T D|T B M| | | | | | | | |]; simpl; try done.
  - intros [= ->] HK. rewrite HK. simpl. by rewrite HK.
  - intros [= ->] HK. rewrite bool_decide_eq_true_2 by done. simpl. by rewrite HK.
Qed.

(** C4.  Visiting an address-of whose operand is, under parentheses and
    casts, a reference or a member access succeeds (the referent having
    the class the pass expects) and adds the canonical declaration of
    the referent to AddressTakenSet: afterwards that declaration is in
    the set, the set holds it and its former members and nothing more,
    and no other field has changed.  A unary operator that is not an
    address-of, or an address-of with an operand of any other shape (a
    dereference in particular), changes nothing.  No other visit of the
    collector changes AddressTakenSet. *)
Theorem address_of_visit :
  (∀ SubExpr DD st,
     referencedDecl (IgnoreParenCasts SubExpr) = Some DD →
     wellKindedRef (IgnoreParenCasts SubExpr) →
     trackedOperand SubExpr ∧
     ∃ st', VisitUnaryOperator UO_AddrOf SubExpr st = Ok st' ∧
            getCanonicalDecl DD ∈ AddrTakenDecls st' ∧
            AddrTakenDecls st' = {[getCanonicalDecl DD]} ∪ AddrTakenDecls st ∧
            (∀ d, d ∈ AddrTakenDecls st' ↔
                  d = getCanonicalDecl DD ∨ d ∈ AddrTakenDecls st) ∧
            st' = set_AddrTakenDecls
                    ({[getCanonicalDecl DD]} ∪ AddrTakenDecls st) st ∧
            ValidDecls st' = ValidDecls st ∧
            VisitedDecls st' = VisitedDecls st ∧
            AllPtrDecls st' = AllPtrDecls st ∧
            MaxIndirectLevel st' = MaxIndirectLevel st) ∧
  (∀ Opc SubExpr st,
     (Opc ≠ UO_AddrOf ∨ ¬ trackedOperand SubExpr) →
     VisitUnaryOperator Opc SubExpr st = Ok st) ∧
  (∀ T E st,
     VisitUnaryOperator UO_AddrOf (UnaryOperator T UO_Deref E) st = Ok st) ∧
  (∀ N st st',
     PointerLevelCollectionVisitor.Visit N st = Ok st' →
     AddrTakenDecls st' ≠ AddrTakenDecls st →
     ∃ T SubExpr DD,
       N = NExpr (UnaryOperator T UO_AddrOf SubExpr) ∧
       trackedOperand SubExpr ∧
       referencedDecl (IgnoreParenCasts SubExpr) = Some DD ∧
       getCanonicalDecl DD ∈ AddrTakenDecls st' ∧
       AddrTakenDecls st' = {[getCanonicalDecl DD]} ∪ AddrTakenDecls st ∧
       st' = set_AddrTakenDecls ({[getCanonicalDecl DD]} ∪ AddrTakenDecls st) st).
Proof.
  split_and!.
  - intros SubExpr DD st Href Hkind.
    split; [apply trackedOperand_referencedDecl; eauto|].
    exists (set_AddrTakenDecls ({[getCanonicalDecl DD]} ∪ AddrTakenDecls st) st).
    split_and!; try done.
    + unfold VisitUnaryOperator. simpl.
      rewrite (getCanonicalDeclaratorDecl_wellKinded _ _ Href Hkind).
      by destruct (IgnoreParenCasts SubExpr).
    + simpl. apply elem_of_union. left. by apply elem_of_singleton.
    + intros d. simpl. rewrite elem_of_union, elem_of_singleton. done.
  - intros Opc SubExpr st [HO|HS]; unfold VisitUnaryOperator.
    + by rewrite bool_decide_eq_false_2.
    + case_bool_decide; [|done]. simpl. unfold trackedOperand in HS.
      destruct (IgnoreParenCasts SubExpr); simpl in *; tauto.
  - done.
  - intros N st st' HN Hne.
    destruct N as [[DD ?|DD|DD ? ?| |]|[]]; simpl in HN;
      try (by inversion HN; subst);
      try (by apply VisitDeclaratorDecl_cases in HN
             as [->|(c & lvl & _ & _ & _ & _ & ->)];
           [|rewrite AddrTakenDecls_registered in Hne]).
    + apply VisitUnaryOperator_cases in HN as [->|(d & -> & Ht & Hd & ->)]; [done|].
      apply getCanonicalDeclaratorDecl_Ok in Hd as (DD & Href & _ & ->).
      eexists _, _, DD. split_and!; try done.
      simpl. apply elem_of_union. left. by apply elem_of_singleton.
    + by apply VisitBinaryOperator_cases in HN as [->|(d & _ & _ & ->)].
Qed.

Lemma address_of_visit_witness :
  referencedDecl (IgnoreParenCasts (ParenExpr (PointerType Examples.IntTy) Examples.ref_q))
    = Some Examples.q ∧
  wellKindedRef (IgnoreParenCasts (ParenExpr (PointerType Examples.IntTy) Examples.ref_q)) ∧
  (3%positive ∉ AddrTakenDecls Examples.collected_q) ∧
  ∃ st', VisitUnaryOperator UO_AddrOf
           (ParenExpr (PointerType Examples.IntTy) Examples.ref_q)
           Examples.collected_q = Ok st' ∧
         3%positive ∈ AddrTakenDecls st'.
Proof.
  split; [reflexivity|]. split; [reflexivity|].
  split; [apply (bool_decide_unpack _); vm_compute; exact I|].
  destruct (proj1 address_of_visit
              (ParenExpr (PointerType Examples.IntTy) Examples.ref_q) Examples.q
              Examples.collected_q eq_refl eq_refl)
    as (_ & st' & Hrun & Hin & _).
  exists st'. split; [exact Hrun|exact Hin].
Defined.

(** ** Resolution of the left-hand side *)

Lemma getRefDecl_unfold Exp :
  getRefDecl Exp =
  match ignoreSubscriptExprParenCasts Exp with
  | DeclRefExpr _ _ => getCanonicalDeclaratorDecl (ignoreSubscriptExprParenCasts Exp)
  | MemberExpr _ _ _ => getCanonicalDeclaratorDecl (ignoreSubscriptExprParenCasts Exp)
  | UnaryOperator _ Opc SubE =>
      TransAssert (bool_decide (Opc = UO_Deref)) "Non-Deref Opcode!";;
      getRefDecl SubE
  | _ => TransAssertFailed "Bad UnaryOperator!"
  end.
Proof. by destruct Exp. Qed.

Lemma getRefDecl_Paren T E : getRefDecl (ParenExpr T E) = getRefDecl E.
Proof. by rewrite (getRefDecl_unfold E). Qed.

Lemma getRefDecl_Cast T E : getRefDecl (CastExpr T E) = getRefDecl E.
Proof. by rewrite (getRefDecl_unfold E). Qed.

Lemma getRefDecl_Subscript T Base Idx :
  getRefDecl (ArraySubscriptExpr T Base Idx) = getRefDecl Base.
Proof. by rewrite (getRefDecl_unfold Base). Qed.

Lemma getRefDecl_Deref T E : getRefDecl (UnaryOperator T UO_Deref E) = getRefDecl E.
Proof. done. Qed.

Lemma getRefDecl_resolvable Lhs d : getRefDecl Lhs = Ok d → ResolvableLhs Lhs.
Proof.
  induction Lhs as [T D|T B _ M|T Opc E IH|T Opc L _ R _|T B IH Idx _|T E IH|T E IH
                   |T C _ Args|T C _ X _ Y _|T V|T Inits].
  - intros _. constructor.
  - intros _. constructor.
  - cbn. unfold TransAssert. case_bool_decide as HO; simpl; [|done].
    subst Opc. intros H. constructor. by apply IH.
  - done.
  - rewrite getRefDecl_Subscript. intros H. constructor. by apply IH.
  - rewrite getRefDecl_Paren. intros H. constructor. by apply IH.
  - rewrite getRefDecl_Cast. intros H. constructor. by apply IH.
  - done.
  - done.
  - done.
  - done.
Qed.

Lemma getRefDecl_unresolvable Lhs :
  ¬ ResolvableLhs Lhs → ∃ Msg, getRefDecl Lhs = TransAssertFailed Msg.
Proof.
  intros Hn. destruct (getRefDecl Lhs) as [d|Msg] eqn:H; [|by exists Msg].
  by apply getRefDecl_resolvable in H.
Qed.

Lemma resolvable_getRefDecl Lhs :
  ResolvableLhs Lhs →
  ∃ Leaf, (isDeclRefExpr Leaf || isMemberExpr Leaf = true) ∧
          getRefDecl Lhs = getCanonicalDeclaratorDecl Leaf.
Proof.
  induction 1 as [T D|T B M|T E _ IH|T E _ IH|T B Idx _ IH|T E _ IH].
  - by exists (DeclRefExpr T D).
  - by exists (MemberExpr T B M).
  - by rewrite getRefDecl_Paren.
  - by rewrite getRefDecl_Cast.
  - by rewrite getRefDecl_Subscript.
  - by rewrite getRefDecl_Deref.
Qed.

Lemma VisitAll_abort Visit Ns1 N Ns2 st st1 Msg :
  VisitAll Visit Ns1 st = Ok st1 → Visit N st1 = TransAssertFailed Msg →
  VisitAll Visit (Ns1 ++ N :: Ns2) st = TransAssertFailed Msg.
Proof. intros H1 HN. rewrite VisitAll_app, H1. simpl. by rewrite HN. Qed.

(** C10, as amended.  [getRefDecl] returns a declaration only for a
    left-hand side that leads, through parentheses, casts, subscript
    bases and dereferences, to a reference or a member access, and then
    it returns what [getCanonicalDeclaratorDecl] gives for that leaf.  On
    any other left-hand side it fails an assertion; so does the visit of
    an assignment to such a left-hand side of pointer type whose
    right-hand side is none of the three safe shapes, and with it the
    whole collection. *)
Theorem lhs_resolution_partial :
  (∀ Lhs d, getRefDecl Lhs = Ok d → ResolvableLhs Lhs) ∧
  (∀ Lhs, ResolvableLhs Lhs →
     ∃ Leaf, (isDeclRefExpr Leaf || isMemberExpr Leaf = true) ∧
             getRefDecl Lhs = getCanonicalDeclaratorDecl Leaf) ∧
  (∀ Lhs, (¬ ResolvableLhs Lhs) → ∃ Msg, getRefDecl Lhs = TransAssertFailed Msg) ∧
  (∀ Opc Lhs RHS st,
     isAssignmentOp Opc = true ∨ isCompoundAssignmentOp Opc = true →
     isPointerType (Expr_getType Lhs) = true →
     (¬ safeRhs RHS) → (¬ ResolvableLhs Lhs) →
     ∃ Msg, VisitBinaryOperator Opc Lhs RHS st = TransAssertFailed Msg ∧
       ∀ T Ns1 Ns2 st0,
         VisitAll PointerLevelCollectionVisitor.Visit Ns1 st0 = Ok st →
         VisitAll PointerLevelCollectionVisitor.Visit
           (Ns1 ++ NExpr (BinaryOperator T Opc Lhs RHS) :: Ns2) st0
         = TransAssertFailed Msg).
Proof.
  split_and!.
  - apply getRefDecl_resolvable.
  - apply resolvable_getRefDecl.
  - apply getRefDecl_unresolvable.
  - intros Opc Lhs RHS st Hop Hptr Hunsafe Hn.
    destruct (getRefDecl_unresolvable Lhs Hn) as [Msg HMsg]. exists Msg.
    assert (HV : VisitBinaryOperator Opc Lhs RHS st = TransAssertFailed Msg).
    { unfold VisitBinaryOperator.
      replace (negb (isAssignmentOp Opc) && negb (isCompoundAssignmentOp Opc))
        with false
        by (destruct Hop as [-> | ->]; simpl; [done|by rewrite andb_false_r]).
      rewrite Hptr. cbn [negb]. unfold safeRhs in Hunsafe.
      destruct (IgnoreParenCasts RHS); simpl in *; try tauto; by rewrite HMsg. }
    split; [done|]. intros T Ns1 Ns2 st0 Hrun.
    by apply (VisitAll_abort _ _ _ _ _ st).
Qed.

Lemma lhs_resolution_partial_witness :
  (isAssignmentOp BO_Assign = true ∨ isCompoundAssignmentOp BO_Assign = true) ∧
  isPointerType (Expr_getType Examples.deref_call_g) = true ∧
  (¬ safeRhs Examples.null_pointer) ∧
  (¬ ResolvableLhs Examples.deref_call_g) ∧
  ∃ Msg, VisitBinaryOperator BO_Assign Examples.deref_call_g Examples.null_pointer
           Examples.collected_q = TransAssertFailed Msg.
Proof.
  assert (Hshape : ¬ ResolvableLhs Examples.deref_call_g).
  { intros H. inversion H as [| | | | |T E HE]; subst. inversion HE. }
  split; [left; reflexivity|]. split; [reflexivity|].
  split; [exact (fun H => H)|]. split; [exact Hshape|].
  destruct (proj2 (proj2 (proj2 lhs_resolution_partial))
              BO_Assign Examples.deref_call_g Examples.null_pointer
              Examples.collected_q (or_introl eq_refl) eq_refl (fun H => H) Hshape)
    as (Msg & HMsg & _).
  by exists Msg.
Defined.

(** The claim as first stated fails on [*g() = q]: the left-hand side has
    pointer type and cannot be resolved, yet the right-hand side is a
    reference, the visit returns before resolving and the collection of
    the whole program succeeds. *)
Lemma unresolvable_lhs_safe_rhs_no_abort :
  isAssignmentOp BO_Assign = true ∧
  isPointerType (Expr_getType Examples.deref_call_g) = true ∧
  (¬ ResolvableLhs Examples.deref_call_g) ∧
  VisitBinaryOperator BO_Assign Examples.deref_call_g
    (Examples.rvalue Examples.ref_q) Examples.collected_q
  = Ok Examples.collected_q ∧
  isOk (Collect Examples.program_store_ref 1 false) = true.
Proof.
  split_and!; try reflexivity.
  intros H. inversion H as [| | | | |T E HE]; subst. inversion HE.
Qed.

(** ** The run as a whole *)

Lemma rewrite_Visit_id Ctx N st st' :
  PointerLevelRewriteVisitor.Visit Ctx N st = Ok st' → st' = st.
Proof.
  destruct N as [[VD Init|FD| | |]|[]]; simpl; try (by intros [= <-]).
  - unfold PointerLevelRewriteVisitor.VisitVarDecl, rewriteVarDecl,
      rewriteArrayInit, rewriteRecordInit.
    repeat (match goal with
            | |- context [if ?b then _ else _] => destruct b
            | |- context [match ?T with BuiltinType _ => _ | _ => _ end] => destruct T
            end; try (by intros [= <-]); try done).
  - unfold PointerLevelRewriteVisitor.VisitFieldDecl, rewriteFieldDecl.
    destruct (dyn_cast_FieldDecl _ _); [case_bool_decide|]; by intros [= <-].
Qed.

Lemma rewrite_traversal_id Ctx Ns st st' :
  VisitAll (PointerLevelRewriteVisitor.Visit Ctx) Ns st = Ok st' → st' = st.
Proof.
  intros H. symmetry.
  apply (VisitAll_preserves (λ s, st = s)
           (PointerLevelRewriteVisitor.Visit Ctx)) with (Ns := Ns) (st := st);
    [|done|done].
  intros N s s' -> HN. symmetry. by eapply rewrite_Visit_id.
Qed.

Lemma set_TransformationCounter_id st k :
  TransformationCounter st = k → set_TransformationCounter k st = st.
Proof. destruct st; simpl. by intros ->. Qed.

Lemma Collect_counter Ctx k q st :
  Collect Ctx k q = Ok st →
  TransformationCounter st = k ∧ QueryInstanceOnly st = q ∧
  TransError st = TransSuccess ∧ TheRewriter st = [] ∧ TheRecordDecl st = None.
Proof. by intros [? ? ? ? ? ? ?]%Collect_selection_frame. Qed.

Lemma Collect_queryCount Ctx k q st :
  Collect Ctx k q = Ok st → queryCount st = Z.of_nat (size (eligibleSet st)).
Proof.
  intros Hc. rewrite queryCount_candidates, size_eligibleSet.
  - destruct (Collect_unselected _ _ _ _ Hc) as [_ ->]. lia.
  - by eapply Collect_registry_ok.
Qed.

(** The selection made by the analysis of a collected state. *)
Lemma Collect_TheDecl Ctx k q st :
  Collect Ctx k q = Ok st →
  TheDecl (doAnalysis st) =
  if bool_decide (1 ≤ k ≤ Z.of_nat (size (eligibleSet st)))
  then candidates st !! Z.to_nat (k - 1) else None.
Proof.
  intros Hc.
  destruct (Collect_counter _ _ _ _ Hc) as (Hk & _).
  rewrite size_eligibleSet by (by eapply Collect_registry_ok).
  rewrite <- (selectedBy_candidates st k) by (by eapply Collect_unselected).
  unfold selectedBy. by rewrite set_TransformationCounter_id.
Qed.

Lemma doAnalysis_QueryInstanceOnly st :
  QueryInstanceOnly (doAnalysis st) = QueryInstanceOnly st.
Proof. by rewrite doAnalysis_advance. Qed.

Lemma doAnalysis_TransformationCounter st :
  TransformationCounter (doAnalysis st) = TransformationCounter st.
Proof. by rewrite doAnalysis_advance. Qed.

Lemma HandleTranslationUnit_query Ctx st :
  QueryInstanceOnly st = true →
  HandleTranslationUnit Ctx st = Ok (Ctx, doAnalysis st).
Proof.
  intros Hq. unfold HandleTranslationUnit.
  by rewrite doAnalysis_QueryInstanceOnly, Hq.
Qed.

Lemma HandleTranslationUnit_beyond Ctx st :
  QueryInstanceOnly st = false →
  ValidInstanceNum (doAnalysis st) < TransformationCounter st →
  HandleTranslationUnit Ctx st =
  Ok (Ctx, set_TransError TransMaxInstanceError (doAnalysis st)).
Proof.
  intros Hq Hk. unfold HandleTranslationUnit.
  rewrite doAnalysis_QueryInstanceOnly, Hq, doAnalysis_TransformationCounter.
  rewrite bool_decide_eq_true_2 by lia. done.
Qed.

(** C5.  In apply mode with a counter above the number of eligible
    declarations the run ends at the early return: it reports
    [TransMaxInstanceError], hands back the context it was given
    (translation unit and diagnostics state untouched, the suppression
    of diagnostics not lifted) and an instance that differs from the
    analysed one in the error field only, with no selection, no record
    declaration and no pending edit. *)
Theorem apply_beyond_count Ctx k st :
  Collect Ctx k false = Ok st →
  Z.of_nat (size (eligibleSet st)) < k →
  runPass Ctx k false =
    Ok (Ctx, set_TransError TransMaxInstanceError (doAnalysis st)) ∧
  TransError (set_TransError TransMaxInstanceError (doAnalysis st))
    = TransMaxInstanceError ∧
  TheDecl (doAnalysis st) = None ∧
  TheRecordDecl (doAnalysis st) = None ∧
  TheRewriter (doAnalysis st) = [].
Proof.
  intros Hc Hk.
  destruct (Collect_counter _ _ _ _ Hc) as (Hctr & Hq & _ & Hrw & Hrd).
  pose proof (Collect_queryCount _ _ _ _ Hc) as Hcount. unfold queryCount in Hcount.
  split_and!.
  - unfold runPass. rewrite Hc. simpl.
    apply HandleTranslationUnit_beyond; [done|]. lia.
  - done.
  - rewrite (Collect_TheDecl _ _ _ _ Hc). by rewrite bool_decide_eq_false_2 by lia.
  - by rewrite doAnalysis_advance.
  - by rewrite doAnalysis_advance.
Qed.

Lemma apply_beyond_count_witness :
  Collect Examples.program_pq 3 false = Ok Examples.collected_pq_beyond ∧
  Z.of_nat (size (eligibleSet Examples.collected_pq_beyond)) < 3 ∧
  runPass Examples.program_pq 3 false =
    Ok (Examples.program_pq,
        set_TransError TransMaxInstanceError
          (doAnalysis Examples.collected_pq_beyond)).
Proof.
  split; [vm_compute; reflexivity|]. split; [vm_compute; reflexivity|].
  apply (apply_beyond_count Examples.program_pq 3 Examples.collected_pq_beyond);
    vm_compute; reflexivity.
Defined.

(** C6, as amended.  In query mode the run returns right after the
    analysis: the context is handed back as it was, the running count is
    the number of eligible declarations, no error is reported and no
    edit is pending.  The analysis itself does not look at the query
    flag: the selection stays unset exactly when the counter lies
    outside 1..count. *)
Theorem query_mode_run Ctx k st :
  Collect Ctx k true = Ok st →
  runPass Ctx k true = Ok (Ctx, doAnalysis st) ∧
  ValidInstanceNum (doAnalysis st) = Z.of_nat (size (eligibleSet st)) ∧
  TransError (doAnalysis st) = TransSuccess ∧
  TheRecordDecl (doAnalysis st) = None ∧
  TheRewriter (doAnalysis st) = [] ∧
  (TheDecl (doAnalysis st) = None ↔ ¬ (1 ≤ k ≤ Z.of_nat (size (eligibleSet st)))).
Proof.
  intros Hc.
  destruct (Collect_counter _ _ _ _ Hc) as (Hctr & Hq & Herr & Hrw & Hrd).
  split_and!.
  - unfold runPass. rewrite Hc. simpl. by apply HandleTranslationUnit_query.
  - by apply Collect_queryCount in Hc.
  - by rewrite doAnalysis_advance.
  - by rewrite doAnalysis_advance.
  - by rewrite doAnalysis_advance.
  - rewrite (Collect_TheDecl _ _ _ _ Hc).
    case_bool_decide as Hk; split; try done.
    intros Hnone. apply lookup_ge_None in Hnone.
    rewrite size_eligibleSet in Hk by (by eapply Collect_registry_ok). lia.
Qed.

Lemma query_mode_run_witness :
  Collect Examples.program_pq 0 true = Ok Examples.collected_pq_query ∧
  runPass Examples.program_pq 0 true =
    Ok (Examples.program_pq, doAnalysis Examples.collected_pq_query).
Proof.
  split; [vm_compute; reflexivity|].
  apply (query_mode_run Examples.program_pq 0 Examples.collected_pq_query).
  vm_compute; reflexivity.
Defined.

(** The claim as first stated fails for [int **p; int *q; ...] queried
    with counter 1: the run is in query mode and still records [p] as
    the selection. *)
Lemma query_mode_records_selection :
  match runPass Examples.program_pq 1 true with
  | Ok (_, st) => QueryInstanceOnly st = true ∧ TheDecl st = Some 2%positive
  | TransAssertFailed _ => False
  end.
Proof. vm_compute. split; reflexivity. Qed.

(** No run edits the program: the rewrite traversal returns the instance
    it was given, so the translation unit comes back as it went in and
    no edit is ever pending. *)
Lemma runPass_no_edit Ctx k q Ctx' st' :
  runPass Ctx k q = Ok (Ctx', st') →
  TopLevelDecls Ctx' = TopLevelDecls Ctx ∧ TheRewriter st' = [].
Proof.
  unfold runPass. destruct (Collect Ctx k q) as [st|] eqn:Hc; simpl; [|done].
  destruct (Collect_counter _ _ _ _ Hc) as (_ & _ & _ & Hrw & _).
  assert (Hrw' : TheRewriter (doAnalysis st) = []) by (by rewrite doAnalysis_advance).
  unfold HandleTranslationUnit.
  destruct (QueryInstanceOnly (doAnalysis st)); [by intros [= <- <-]|].
  case_bool_decide; [by intros [= <- <-]|].
  unfold TransAssert. case_bool_decide; simpl; [|done].
  destruct (VisitAll _ _ _) as [st1|] eqn:Hrun; simpl; [|done].
  apply rewrite_traversal_id in Hrun. subst st1.
  assert (TheRewriter (setRecordDecl (setSuppressAllDiagnostics false Ctx)
                         (doAnalysis st)) = []).
  { unfold setRecordDecl. by destruct (dyn_cast_FieldDecl _ _). }
  destruct (_ || _); by intros [= <- <-].
Qed.

(** C7, on the code.  For [int **p; int *q; int main(void) { return **p +
    *q; }] the count is 2, index 1 selects [p] and index 2 selects [q];
    but the run for index 1 ends without error and without any edit: the
    translation unit it hands back is the one it was given, in which [p]
    is still declared [int **] and still dereferenced twice. *)
Theorem scenario_pq_rewrite_missing :
  Collect Examples.program_pq 1 false = Ok Examples.collected_pq ∧
  queryCount Examples.collected_pq = 2 ∧
  selectedBy Examples.collected_pq 1 = Some (declPtr Examples.p) ∧
  selectedBy Examples.collected_pq 2 = Some (declPtr Examples.q) ∧
  ∃ Ctx' st',
    runPass Examples.program_pq 1 false = Ok (Ctx', st') ∧
    TheDecl st' = Some (declPtr Examples.p) ∧
    TransError st' = TransSuccess ∧
    TheRewriter st' = [] ∧
    TopLevelDecls Ctx' =
      [[VarDecl Examples.p None]; [VarDecl Examples.q None];
       [FunctionDecl Examples.main [] (Some Examples.main_body)]] ∧
    getType Examples.p = PointerType (PointerType Examples.IntTy) ∧
    NExpr Examples.deref_deref_p ∈ TranslationUnitNodes Ctx'.
Proof.
  split; [vm_compute; reflexivity|].
  split; [vm_compute; reflexivity|].
  split; [vm_compute; reflexivity|].
  split; [vm_compute; reflexivity|].
  destruct (runPass Examples.program_pq 1 false) as [[Ctx' st']|] eqn:Hrun;
    [|vm_compute in Hrun; discriminate].
  exists Ctx', st'. split; [done|].
  destruct (runPass_no_edit _ _ _ _ _ Hrun) as [Htu Hrw].
  split; [by vm_compute in Hrun; injection Hrun as <- <-|].
  split; [by vm_compute in Hrun; injection Hrun as <- <-|].
  split; [done|]. split; [done|]. split; [done|].
  unfold TranslationUnitNodes. rewrite Htu. vm_compute.
  do 5 apply list_elem_of_further. apply list_elem_of_here.
Qed.

(** ** Registration *)

Lemma VisitAll_preserves_elem (P : ReducePointerLevel → Prop) Visit Ns :
  (∀ N st st', N ∈ Ns → P st → Visit N st = Ok st' → P st') →
  ∀ st st', P st → VisitAll Visit Ns st = Ok st' → P st'.
Proof.
  induction Ns as [|N Ns IH]; intros Hstep st st' HP Hrun; simpl in Hrun.
  - by inversion Hrun; subst.
  - destruct (Visit N st) as [st1|msg] eqn:HN; simpl in Hrun; [|done].
    eapply IH; [|eapply Hstep; [apply list_elem_of_here|exact HP|exact HN]|exact Hrun].
    intros N' s s' HN'. apply Hstep. by apply list_elem_of_further.
Qed.

Lemma canonicalDeclaratorDecl_Some DD c :
  canonicalDeclaratorDecl DD = Some c → c = getCanonicalDecl DD.
Proof.
  unfold canonicalDeclaratorDecl. destruct (isDeclaratorDeclKind _); by intros [= <-].
Qed.

Lemma VisitDeclaratorDecl_visited DD st :
  getCanonicalDecl DD ∈ VisitedDecls st → VisitDeclaratorDecl DD st = Ok st.
Proof.
  intros Hin. unfold VisitDeclaratorDecl.
  destruct (isVAArgField DD); [done|].
  destruct (negb (bool_decide (getKind DD = Field)) &&
            negb (bool_decide (getKind DD = Var))) eqn:HK; [done|].
  destruct (isPointerType _); simpl; [|done].
  unfold canonicalDeclaratorDecl.
  replace (isDeclaratorDeclKind (getKind DD)) with true.
  - by rewrite decide_True.
  - apply andb_false_iff in HK as [HK|HK]; apply negb_false_iff in HK;
      apply bool_decide_eq_true_1 in HK; by rewrite HK.
Qed.

Lemma VisitDeclaratorDecl_not_pointer DD st :
  isPointerType (registrationType DD) = false → VisitDeclaratorDecl DD st = Ok st.
Proof.
  intros Hnp. unfold VisitDeclaratorDecl.
  destruct (isVAArgField DD); [done|].
  destruct (_ && _); [done|].
  fold (registrationType DD). by rewrite Hnp.
Qed.

(** C8.  After collection every level set of the registry is free of
    duplicates, a declaration is registered at one level only, every
    level in use is at least 1, and every valid declaration is
    registered.  Visiting a declaration whose canonical declaration has
    been visited already, or whose type (arrays reduced to their base
    element) is not a pointer, changes nothing; a visit that does change
    the instance is the registration of a canonical declaration not
    visited before, at a level of at least 1.  Once a declaration is
    visited, nothing the collector visits later changes the level it is
    registered at or puts it back into ValidSet, and every later visit
    of one of its redeclarations changes nothing. *)
Theorem registration_idempotent Ctx k q st :
  Collect Ctx k q = Ok st →
  (∀ L, NoDup (levelSet st L)) ∧
  (∀ L1 L2 d, registeredAt st L1 d → registeredAt st L2 d → L1 = L2) ∧
  (∀ L d, registeredAt st L d → 1 ≤ L) ∧
  (∀ d, d ∈ ValidDecls st → ∃ L, registeredAt st L d) ∧
  (∀ DD s, getCanonicalDecl DD ∈ VisitedDecls s → VisitDeclaratorDecl DD s = Ok s) ∧
  (∀ DD s, isPointerType (registrationType DD) = false →
           VisitDeclaratorDecl DD s = Ok s) ∧
  (∀ DD s s', VisitDeclaratorDecl DD s = Ok s' → s' ≠ s →
     (getCanonicalDecl DD ∉ VisitedDecls s) ∧
     ∃ lvl, 1 ≤ lvl ∧ s' = registered (getCanonicalDecl DD) lvl s ∧
            registeredAt s' lvl (getCanonicalDecl DD) ∧
            getCanonicalDecl DD ∈ ValidDecls s' ∧
            getCanonicalDecl DD ∈ VisitedDecls s') ∧
  (∀ Ns s s' d,
     VisitAll PointerLevelCollectionVisitor.Visit Ns s = Ok s' →
     d ∈ VisitedDecls s →
     d ∈ VisitedDecls s' ∧
     (∀ L, registeredAt s' L d ↔ registeredAt s L d) ∧
     (d ∈ ValidDecls s' → d ∈ ValidDecls s)) ∧
  (∀ Ns s s' DD,
     VisitAll PointerLevelCollectionVisitor.Visit Ns s = Ok s' →
     getCanonicalDecl DD ∈ VisitedDecls s →
     VisitDeclaratorDecl DD s' = Ok s').
Proof.
  intros Hc. pose proof (Collect_registry_ok _ _ _ _ Hc) as Hok.
  split_and!.
  - apply Hok.
  - apply Hok.
  - intros L d Hd. by destruct (reg_level _ Hok _ _ Hd).
  - intros d Hd. by apply (reg_total _ Hok), (reg_valid _ Hok).
  - apply VisitDeclaratorDecl_visited.
  - apply VisitDeclaratorDecl_not_pointer.
  - intros DD s s' [->|(c & lvl & _ & Hcan & Hc' & Hlvl & ->)]%VisitDeclaratorDecl_cases
      Hne; [done|].
    apply canonicalDeclaratorDecl_Some in Hcan as ->.
    split; [done|]. exists lvl. split_and!; try done; try lia.
    + apply registeredAt_registered. by right.
    + rewrite ValidDecls_registered. apply elem_of_union. left.
      by apply elem_of_singleton.
    + rewrite VisitedDecls_registered. apply elem_of_union. left.
      by apply elem_of_singleton.
  - intros Ns s s' d. apply collection_stable.
  - intros Ns s s' DD Hrun Hvis. apply VisitDeclaratorDecl_visited.
    by destruct (collection_stable _ _ _ _ Hrun Hvis).
Qed.

Lemma registration_idempotent_witness :
  Collect Examples.program_pq 1 false = Ok Examples.collected_pq ∧
  (∀ L1 L2 d, registeredAt Examples.collected_pq L1 d →
              registeredAt Examples.collected_pq L2 d → L1 = L2).
Proof.
  split; [vm_compute; reflexivity|].
  apply (registration_idempotent Examples.program_pq 1 false Examples.collected_pq).
  vm_compute; reflexivity.
Defined.

Lemma isVAArgField_name DD : isVAArgField DD = true ↔ hasVAArgName DD.
Proof.
  unfold isVAArgField, hasVAArgName, compare_is_zero.
  rewrite orb_true_iff.
  split; (intros [H|H]; [left|right]).
  - destruct (String.compare _ _) eqn:E; try done. by apply String.compare_eq_iff.
  - destruct (String.compare _ _) eqn:E; try done. by apply String.compare_eq_iff.
  - by rewrite H.
  - by rewrite H.
Qed.

(** C9.  A declaration named reg_save_area or overflow_arg_area is
    skipped by the declaration visit whatever its kind and type.  When
    every declarator node of the translation unit that resolves to the
    canonical declaration [d] carries one of the two names, [d] is never
    visited, registered at no level, not in ValidSet, not eligible, not
    in the selection order and selected by no index. *)
Theorem va_arg_names_skipped Ctx k q st d :
  (∀ N DD, N ∈ TranslationUnitNodes Ctx → visitedDeclarator N = Some DD →
           getCanonicalDecl DD = d → hasVAArgName DD) →
  Collect Ctx k q = Ok st →
  (∀ DD s, hasVAArgName DD → VisitDeclaratorDecl DD s = Ok s) ∧
  (d ∉ VisitedDecls st) ∧
  (∀ L, ¬ registeredAt st L d) ∧
  (d ∉ ValidDecls st) ∧
  (¬ eligible st d) ∧
  (d ∉ candidates st) ∧
  (∀ i, selectedBy st i ≠ Some d).
Proof.
  intros Hnames Hc.
  pose proof (Collect_registry_ok _ _ _ _ Hc) as Hok.
  pose proof (Collect_unselected _ _ _ _ Hc) as Hun.
  assert (Hskip : ∀ DD s, hasVAArgName DD → VisitDeclaratorDecl DD s = Ok s).
  { intros DD s HDD%isVAArgField_name. unfold VisitDeclaratorDecl. by rewrite HDD. }
  assert (Hvis : d ∉ VisitedDecls st).
  { rewrite Collect_nodes in Hc. revert Hc.
    apply (VisitAll_preserves_elem (λ s, d ∉ VisitedDecls s)); [|simpl; set_solver].
    intros N s s' HN Hd Hstep.
    assert (HD : ∀ DD, visitedDeclarator N = Some DD →
                 VisitDeclaratorDecl DD s = Ok s' → d ∉ VisitedDecls s').
    { intros DD HDD [->|(c & lvl & Hva & Hcan & _ & _ & ->)]%VisitDeclaratorDecl_cases;
        [done|].
      apply canonicalDeclaratorDecl_Some in Hcan as ->.
      rewrite VisitedDecls_registered.
      intros [Heq%elem_of_singleton|?]%elem_of_union; [|done].
      assert (isVAArgField DD = true) as Hva'
          by (apply isVAArgField_name; eapply Hnames; eauto).
      congruence. }
    destruct N as [[DD ?|DD|DD ? ?| |]|[]]; simpl in Hstep;
      try (by inversion Hstep; subst); try (by eapply HD).
    - by apply VisitUnaryOperator_cases in Hstep as [->|(d' & _ & _ & _ & ->)].
    - by apply VisitBinaryOperator_cases in Hstep as [->|(d' & _ & _ & ->)]. }
  assert (Hval : d ∉ ValidDecls st).
  { intros Hd. by apply Hvis, (reg_valid _ Hok). }
  split_and!; try done.
  - intros L HL. by apply Hvis, (reg_visited _ Hok L).
  - by apply not_valid_not_eligible.
  - intros Hd. by apply Hval, candidates_valid.
  - intros i. by apply not_valid_not_selected.
Qed.

Lemma va_arg_names_skipped_witness :
  (∀ N DD, N ∈ TranslationUnitNodes Examples.program_named →
           visitedDeclarator N = Some DD →
           getCanonicalDecl DD = 9%positive → hasVAArgName DD) ∧
  Collect Examples.program_named 1 false = Ok Examples.collected_named ∧
  (∀ i, selectedBy Examples.collected_named i ≠ Some 9%positive) ∧
  queryCount Examples.collected_named = 1.
Proof.
  assert (Hnames : ∀ N DD, N ∈ TranslationUnitNodes Examples.program_named →
                           visitedDeclarator N = Some DD →
                           getCanonicalDecl DD = 9%positive → hasVAArgName DD).
  { intros N DD HN. vm_compute in HN.
    apply elem_of_cons in HN as [->|HN]; [intros [= <-] _; by left|].
    apply elem_of_cons in HN as [->|HN]; [intros [= <-]; discriminate|].
    by apply elem_of_nil in HN. }
  split; [exact Hnames|]. split; [vm_compute; reflexivity|].
  split; [|vm_compute; reflexivity].
  apply (va_arg_names_skipped Examples.program_named 1 false
           Examples.collected_named 9%positive Hnames).
  vm_compute; reflexivity.
Defined.

(** ** The example programs, evaluated *)

(** [int **p; int *q; int *r; void f(void) { &p; &q; }]: [p] is at the
    maximum level and stays selectable although its address is taken;
    [q] is at level 1 with its address taken and is passed over; [r] is
    the second and last instance. *)
Example program_addr_selection :
  queryCount Examples.collected_addr = 2 ∧
  selectedBy Examples.collected_addr 1 = Some (declPtr Examples.p) ∧
  selectedBy Examples.collected_addr 2 = Some (declPtr Examples.r) ∧
  selectedBy Examples.collected_addr 3 = None.
Proof. vm_compute. by split_and!. Qed.

(** [q = h();] removes [q] from ValidSet: nothing is left to select. *)
Example program_assign_call_count :
  queryCount (Examples.state_of (Collect Examples.program_assign_call 1 false)) = 0.
Proof. vm_compute. reflexivity. Qed.

(** [*g() = 0;] stops the collection at the assertion of [getRefDecl]. *)
Example program_store_null_aborts :
  runPass Examples.program_store_null 1 false
  = TransAssertFailed "Bad UnaryOperator!".
Proof. vm_compute. reflexivity. Qed.

(** [char *reg_save_area; int *r;]: only [r] is counted. *)
Example program_named_selection :
  queryCount Examples.collected_named = 1 ∧
  selectedBy Examples.collected_named 1 = Some (declPtr Examples.r).
Proof. vm_compute. by split_and!. Qed.

(** ** Types and expressions: what the helpers compute *)

Lemma pointee_loop_shift QT (n : Z) : pointee_loop QT n = n + pointee_loop QT 0.
Proof.
  revert n. induction QT as [|P IH| |]; intros n; simpl; try lia.
  rewrite (IH (n + 1)), (IH (0 + 1)). lia.
Qed.

Lemma getPointerIndirectLevel_PointerType T :
  getPointerIndirectLevel (PointerType T) = 1 + getPointerIndirectLevel T.
Proof.
  unfold getPointerIndirectLevel. simpl.
  destruct T as [|P| |]; simpl; try done.
  rewrite pointee_loop_shift. lia.
Qed.

Lemma getPointerIndirectLevel_not_pointer T :
  isPointerType T = false → getPointerIndirectLevel T = 0.
Proof. by destruct T. Qed.

(** X1.  [getPointerIndirectLevel] counts the pointer layers of a type:
    [n] layers around a type that is not itself a pointer give [n]. *)
Theorem getPointerIndirectLevel_counts n T :
  isPointerType T = false →
  getPointerIndirectLevel (pointerTo n T) = Z.of_nat n.
Proof.
  intros HT. induction n as [|n IH].
  - by apply getPointerIndirectLevel_not_pointer.
  - change (pointerTo (S n) T) with (PointerType (pointerTo n T)).
    rewrite getPointerIndirectLevel_PointerType, IH. lia.
Qed.

Lemma getPointerIndirectLevel_counts_witness :
  isPointerType (ArrayType Examples.IntTy) = false ∧
  getPointerIndirectLevel (pointerTo 3 (ArrayType Examples.IntTy)) = 3.
Proof.
  split; [reflexivity|].
  apply (getPointerIndirectLevel_counts 3 (ArrayType Examples.IntTy)). reflexivity.
Defined.

Lemma base_elem_loop_arrayOf n T :
  isArrayType T = false → base_elem_loop (arrayOf n T) = T.
Proof.
  intros HT. induction n as [|n IH]; simpl.
  - by destruct T.
  - exact IH.
Qed.

(** X2.  [getArrayBaseElemType] peels every array dimension: called on an
    array of [n + 1] dimensions over a type that is not an array it
    returns that type, which is never an array. *)
Theorem getArrayBaseElemType_strips n T :
  isArrayType T = false →
  getArrayBaseElemType (arrayOf (S n) T) = T ∧
  isArrayType (getArrayBaseElemType (arrayOf (S n) T)) = false.
Proof.
  intros HT.
  assert (H : getArrayBaseElemType (arrayOf (S n) T) = T)
    by (by apply (base_elem_loop_arrayOf n)).
  by rewrite H.
Qed.

Lemma getArrayBaseElemType_strips_witness :
  isArrayType (PointerType Examples.IntTy) = false ∧
  getArrayBaseElemType (arrayOf 3 (PointerType Examples.IntTy))
  = PointerType Examples.IntTy.
Proof.
  split; [reflexivity|].
  apply (getArrayBaseElemType_strips 2 (PointerType Examples.IntTy)). reflexivity.
Defined.

Lemma ignoreSubscriptExprParenCasts_stripped E :
  isStripped (ignoreSubscriptExprParenCasts E).
Proof.
  unfold ignoreSubscriptExprParenCasts.
  induction E; simpl; try done.
Qed.

Lemma ignoreSubscriptExprParenCasts_fixed E :
  isStripped E → ignoreSubscriptExprParenCasts E = E.
Proof. by destruct E. Qed.

(** X3.  [ignoreSubscriptExprParenCasts] returns an expression that is
    neither a parenthesis, nor a cast, nor a subscript; it leaves such an
    expression as it is, so applying it twice is applying it once; and a
    subscript is replaced by what its base strips to, whatever the
    index. *)
Theorem ignoreSubscriptExprParenCasts_normal :
  (∀ E, isStripped (ignoreSubscriptExprParenCasts E)) ∧
  (∀ E, isStripped E → ignoreSubscriptExprParenCasts E = E) ∧
  (∀ E, ignoreSubscriptExprParenCasts (ignoreSubscriptExprParenCasts E)
        = ignoreSubscriptExprParenCasts E) ∧
  (∀ T Base Idx, ignoreSubscriptExprParenCasts (ArraySubscriptExpr T Base Idx)
                 = ignoreSubscriptExprParenCasts Base).
Proof.
  split_and!.
  - apply ignoreSubscriptExprParenCasts_stripped.
  - apply ignoreSubscriptExprParenCasts_fixed.
  - intros E. apply ignoreSubscriptExprParenCasts_fixed,
                    ignoreSubscriptExprParenCasts_stripped.
  - done.
Qed.

(** ** The visits of the collector, one at a time *)

Lemma registrable_canonical DD :
  registrable DD = true → canonicalDeclaratorDecl DD = Some (getCanonicalDecl DD).
Proof.
  unfold registrable, canonicalDeclaratorDecl.
  intros [[_ HK%orb_true_iff]%andb_true_iff _]%andb_true_iff.
  destruct HK as [HK|HK]; apply bool_decide_eq_true_1 in HK; by rewrite HK.
Qed.

Lemma VisitDeclaratorDecl_effect DD st :
  VisitDeclaratorDecl DD st =
  Ok (if registrable DD && bool_decide (getCanonicalDecl DD ∉ VisitedDecls st)
      then registered (getCanonicalDecl DD)
             (getPointerIndirectLevel (registrationType DD)) st
      else st).
Proof.
  unfold VisitDeclaratorDecl. fold (registrationType DD).
  destruct (registrable DD) eqn:HR.
  - rewrite (registrable_canonical _ HR).
    unfold registrable in HR.
    apply andb_true_iff in HR as [[HV HK]%andb_true_iff HP].
    apply negb_true_iff in HV. rewrite HV.
    replace (negb (bool_decide (getKind DD = Field)) &&
             negb (bool_decide (getKind DD = Var))) with false
      by (by rewrite <- negb_orb, HK).
    rewrite HP. cbn [negb andb].
    destruct (decide (getCanonicalDecl DD ∈ VisitedDecls st)) as [Hin|Hnin].
    + by rewrite bool_decide_eq_false_2 by tauto.
    + rewrite (bool_decide_eq_true_2 _ Hnin). unfold TransAssert.
      pose proof (getPointerIndirectLevel_pos _ HP).
      rewrite (bool_decide_eq_true_2 (_ > 0)) by done. reflexivity.
  - cbn [andb]. unfold registrable in HR.
    destruct (isVAArgField DD); [done|].
    rewrite <- negb_orb.
    destruct (_ || _); [|done]. simpl in *. by rewrite HR.
Qed.

Lemma registrable_iff DD :
  registrable DD = true ↔
  (getKind DD = Var ∨ getKind DD = Field) ∧ (¬ hasVAArgName DD) ∧
  isPointerType (registrationType DD) = true.
Proof.
  assert (HV : isVAArgField DD = false ↔ ¬ hasVAArgName DD).
  { rewrite <- isVAArgField_name. by destruct (isVAArgField DD). }
  unfold registrable.
  rewrite !andb_true_iff, orb_true_iff, negb_true_iff, !bool_decide_eq_true, HV.
  tauto.
Qed.

(** X6.  The declaration visit never fails: neither of its two
    assertions can fire.  When the declaration is a variable or a field,
    does not carry one of the two skipped names, has pointer type
    (arrays reduced to their base element) and its canonical declaration
    has not been visited, that canonical declaration is afterwards
    visited, valid and registered at the indirection level of the type,
    a level of at least 1; the registry, ValidSet and the visited set
    hold it and what they held before and nothing more, the maximum
    level is raised to its level if that is larger, and AddressTakenSet
    is as before.  In every other case, the visit of a parameter or a
    function included, the instance is returned unchanged. *)
Theorem VisitDeclaratorDecl_total DD st :
  ∃ st', VisitDeclaratorDecl DD st = Ok st' ∧
    (((getKind DD = Var ∨ getKind DD = Field) ∧ (¬ hasVAArgName DD) ∧
      isPointerType (registrationType DD) = true ∧
      getCanonicalDecl DD ∉ VisitedDecls st) →
     0 < getPointerIndirectLevel (registrationType DD) ∧
     registeredAt st' (getPointerIndirectLevel (registrationType DD))
       (getCanonicalDecl DD) ∧
     getCanonicalDecl DD ∈ ValidDecls st' ∧
     getCanonicalDecl DD ∈ VisitedDecls st' ∧
     (∀ L d, registeredAt st' L d ↔
             registeredAt st L d ∨
             (L = getPointerIndirectLevel (registrationType DD) ∧
              d = getCanonicalDecl DD)) ∧
     (∀ d, d ∈ ValidDecls st' ↔ d = getCanonicalDecl DD ∨ d ∈ ValidDecls st) ∧
     (∀ d, d ∈ VisitedDecls st' ↔ d = getCanonicalDecl DD ∨ d ∈ VisitedDecls st) ∧
     MaxIndirectLevel st'
       = Z.max (getPointerIndirectLevel (registrationType DD)) (MaxIndirectLevel st) ∧
     AddrTakenDecls st' = AddrTakenDecls st) ∧
    ((¬ ((getKind DD = Var ∨ getKind DD = Field) ∧ (¬ hasVAArgName DD) ∧
         isPointerType (registrationType DD) = true ∧
         getCanonicalDecl DD ∉ VisitedDecls st)) →
     st' = st).
Proof.
  eexists. split; [apply VisitDeclaratorDecl_effect|]. split.
  - intros (HK & HV & HP & Hnew).
    assert (HR : registrable DD = true) by (apply registrable_iff; done).
    rewrite HR, (bool_decide_eq_true_2 _ Hnew). cbn [andb].
    split_and!.
    + pose proof (getPointerIndirectLevel_pos _ HP). lia.
    + apply registeredAt_registered. by right.
    + rewrite ValidDecls_registered. apply elem_of_union. left.
      by apply elem_of_singleton.
    + rewrite VisitedDecls_registered. apply elem_of_union. left.
      by apply elem_of_singleton.
    + intros L d. apply registeredAt_registered.
    + intros d. by rewrite ValidDecls_registered, elem_of_union, elem_of_singleton.
    + intros d. by rewrite VisitedDecls_registered, elem_of_union, elem_of_singleton.
    + apply MaxIndirectLevel_registered.
    + apply AddrTakenDecls_registered.
  - intros Hn.
    destruct (registrable DD) eqn:HR; [|done].
    apply registrable_iff in HR as (HK & HV & HP).
    rewrite bool_decide_eq_false_2; [done|]. intros Hnew. apply Hn. done.
Qed.

Lemma registrationType_arrayOf DD n T :
  getType DD = arrayOf n T → isArrayType T = false → registrationType DD = T.
Proof.
  intros HT HA. unfold registrationType. rewrite HT.
  destruct n as [|n].
  - simpl. by rewrite HA.
  - change (arrayOf (S n) T) with (ArrayType (arrayOf n T)). simpl.
    by apply base_elem_loop_arrayOf.
Qed.

(** X7.  A variable or field declared as an array, of any number of
    dimensions, of pointers with [m + 1] layers to a non-pointer type is
    registered at level [m + 1] on its first visit: the dimensions do not
    count, and the new declaration is valid and at the end of the set of
    its level. *)
Theorem array_of_pointers_registered DD n m T st :
  getType DD = arrayOf n (pointerTo (S m) T) →
  isPointerType T = false →
  getKind DD = Var ∨ getKind DD = Field →
  isVAArgField DD = false →
  getCanonicalDecl DD ∉ VisitedDecls st →
  VisitDeclaratorDecl DD st
    = Ok (registered (getCanonicalDecl DD) (Z.of_nat (S m)) st) ∧
  levelSet (registered (getCanonicalDecl DD) (Z.of_nat (S m)) st) (Z.of_nat (S m))
    = DeclSet_insert (getCanonicalDecl DD) (levelSet st (Z.of_nat (S m))) ∧
  getCanonicalDecl DD ∈ ValidDecls (registered (getCanonicalDecl DD) (Z.of_nat (S m)) st).
Proof.
  intros HT HP HK HV Hnew.
  assert (Hreg : registrationType DD = pointerTo (S m) T)
    by (by apply (registrationType_arrayOf _ n)).
  assert (HR : registrable DD = true).
  { unfold registrable. rewrite HV, Hreg. simpl.
    destruct HK as [-> | ->]; done. }
  split_and!.
  - rewrite VisitDeclaratorDecl_effect, HR, (bool_decide_eq_true_2 _ Hnew).
    cbn [andb]. by rewrite Hreg, getPointerIndirectLevel_counts.
  - rewrite levelSet_registered. by rewrite decide_True.
  - rewrite ValidDecls_registered. apply elem_of_union. left.
    by apply elem_of_singleton.
Qed.

Lemma array_of_pointers_registered_witness :
  getType Cases.a = arrayOf 2 (pointerTo 2 Examples.IntTy) ∧
  isPointerType Examples.IntTy = false ∧
  (getKind Cases.a = Var ∨ getKind Cases.a = Field) ∧
  isVAArgField Cases.a = false ∧
  (getCanonicalDecl Cases.a ∉ VisitedDecls Examples.collected_pq) ∧
  VisitDeclaratorDecl Cases.a Examples.collected_pq
    = Ok (registered 10%positive 2 Examples.collected_pq).
Proof.
  split; [reflexivity|]. split; [reflexivity|]. split; [left; reflexivity|].
  split; [reflexivity|].
  assert (Hnew : getCanonicalDecl Cases.a ∉ VisitedDecls Examples.collected_pq).
  { apply (bool_decide_unpack _). vm_compute. exact I. }
  split; [exact Hnew|].
  apply (array_of_pointers_registered Cases.a 2 1 Examples.IntTy
           Examples.collected_pq eq_refl eq_refl (or_introl eq_refl) eq_refl Hnew).
Defined.

Lemma DeclSet_insert_idem d (S : list DeclId) :
  DeclSet_insert d (DeclSet_insert d S) = DeclSet_insert d S.
Proof.
  unfold DeclSet_insert at 1. rewrite decide_True; [done|].
  apply elem_of_DeclSet_insert. by right.
Qed.

(** X8.  [addOneDecl] adds the declaration to the set of its level and
    to no other: afterwards the declaration is at that level, and a
    declaration is at a level exactly when it was before or is the one
    just added at that level.  The other fields are left alone.  Adding
    the same declaration at the same level again changes nothing, and
    additions at different levels commute. *)
Theorem addOneDecl_registers :
  (∀ d L st, registeredAt (addOneDecl d L st) L d) ∧
  (∀ d L st L' d',
     registeredAt (addOneDecl d L st) L' d' ↔
     registeredAt st L' d' ∨ (L' = L ∧ d' = d)) ∧
  (∀ d L st,
     ValidDecls (addOneDecl d L st) = ValidDecls st ∧
     VisitedDecls (addOneDecl d L st) = VisitedDecls st ∧
     AddrTakenDecls (addOneDecl d L st) = AddrTakenDecls st ∧
     MaxIndirectLevel (addOneDecl d L st) = MaxIndirectLevel st) ∧
  (∀ d L st, addOneDecl d L (addOneDecl d L st) = addOneDecl d L st) ∧
  (∀ d1 d2 L1 L2 st, L1 ≠ L2 →
     addOneDecl d1 L1 (addOneDecl d2 L2 st) = addOneDecl d2 L2 (addOneDecl d1 L1 st)).
Proof.
  assert (Hiff : ∀ d L st L' d',
     registeredAt (addOneDecl d L st) L' d' ↔
     registeredAt st L' d' ∨ (L' = L ∧ d' = d)).
  { intros d L st L' d'. unfold registeredAt. rewrite levelSet_addOneDecl.
    case_decide as HL.
    - subst L'. rewrite elem_of_DeclSet_insert. tauto.
    - tauto. }
  split_and!.
  - intros d L st. apply Hiff. by right.
  - exact Hiff.
  - done.
  - intros d L st. unfold addOneDecl at 1. cbn [AllPtrDecls set_AllPtrDecls].
    fold (levelSet (addOneDecl d L st) L).
    rewrite levelSet_addOneDecl, decide_True by done.
    rewrite DeclSet_insert_idem. unfold addOneDecl. simpl.
    fold (levelSet st L). rewrite insert_insert_eq. by destruct st.
  - intros d1 d2 L1 L2 st HL. unfold addOneDecl; simpl.
    rewrite !lookup_insert_ne by done.
    unfold set_AllPtrDecls; simpl. f_equal. by apply insert_insert_ne.
Qed.

Lemma VisitUnaryOperator_tracked SubExpr d st :
  trackedOperand SubExpr →
  getCanonicalDeclaratorDecl (IgnoreParenCasts SubExpr) = Ok d →
  VisitUnaryOperator UO_AddrOf SubExpr st
  = Ok (set_AddrTakenDecls ({[d]} ∪ AddrTakenDecls st) st).
Proof.
  unfold VisitUnaryOperator, trackedOperand. simpl. intros Ht Hd.
  rewrite Hd. by destruct (IgnoreParenCasts SubExpr).
Qed.

Lemma VisitBinaryOperator_unsafe Opc Lhs RHS d st :
  isAssignmentOp Opc = true ∨ isCompoundAssignmentOp Opc = true →
  isPointerType (Expr_getType Lhs) = true →
  (¬ safeRhs RHS) → getRefDecl Lhs = Ok d →
  VisitBinaryOperator Opc Lhs RHS st
  = Ok (set_ValidDecls (ValidDecls st ∖ {[d]}) st).
Proof.
  intros Hop Hptr Hunsafe Hd. unfold VisitBinaryOperator.
  replace (negb (isAssignmentOp Opc) && negb (isCompoundAssignmentOp Opc))
    with false
    by (destruct Hop as [-> | ->]; simpl; [done|by rewrite andb_false_r]).
  rewrite Hptr. cbn [negb]. unfold safeRhs in Hunsafe.
  destruct (IgnoreParenCasts RHS); simpl in *; try tauto; by rewrite Hd.
Qed.

Lemma VisitBinaryOperator_inv Opc Lhs RHS st st' :
  VisitBinaryOperator Opc Lhs RHS st = Ok st' →
  st' = st ∨
  ∃ d, (isAssignmentOp Opc = true ∨ isCompoundAssignmentOp Opc = true) ∧
       isPointerType (Expr_getType Lhs) = true ∧
       (¬ safeRhs RHS) ∧ getRefDecl Lhs = Ok d ∧
       st' = set_ValidDecls (ValidDecls st ∖ {[d]}) st.
Proof.
  unfold VisitBinaryOperator, safeRhs.
  destruct (negb (isAssignmentOp Opc) && negb (isCompoundAssignmentOp Opc)) eqn:Hop;
    [intros [= <-]; by left|].
  destruct (isPointerType (Expr_getType Lhs)) eqn:Hptr; simpl;
    [|intros [= <-]; by left].
  assert (Hop' : isAssignmentOp Opc = true ∨ isCompoundAssignmentOp Opc = true).
  { apply andb_false_iff in Hop as [H|H]; apply negb_false_iff in H; auto. }
  destruct (IgnoreParenCasts RHS) eqn:HE; simpl;
    try (intros [= <-]; by left).
  all: destruct (getRefDecl Lhs) as [d|] eqn:Hd; simpl; [|done].
  all: intros [= <-]; right; exists d; split_and!; auto.
Qed.

(** X9.  Visiting the same node twice in a row is the same as visiting it
    once: a declaration is registered by the first visit only, an
    address is recorded once, and a declaration already erased from
    ValidSet is not erased again. *)
Theorem collection_visit_idempotent N st st' :
  PointerLevelCollectionVisitor.Visit N st = Ok st' →
  PointerLevelCollectionVisitor.Visit N st' = Ok st'.
Proof.
  intros HN.
  assert (HD : ∀ DD, VisitDeclaratorDecl DD st = Ok st' →
               VisitDeclaratorDecl DD st' = Ok st').
  { intros DD. rewrite !VisitDeclaratorDecl_effect.
    destruct (registrable DD && bool_decide (getCanonicalDecl DD ∉ VisitedDecls st))
      eqn:HR; intros [= <-].
    - rewrite bool_decide_eq_false_2; [by rewrite andb_false_r|].
      intros Hn. apply Hn. rewrite VisitedDecls_registered.
      apply elem_of_union. left. by apply elem_of_singleton.
    - by rewrite HR. }
  destruct N as [[DD ?|DD|DD ? ?| |]|[]]; simpl in *; try done; try (by apply HD).
  - pose proof HN as HN'.
    apply VisitUnaryOperator_cases in HN' as [->|(d & -> & Ht & Hd & ->)]; [done|].
    rewrite (VisitUnaryOperator_tracked _ d) by done. simpl.
    f_equal. destruct st; unfold set_AddrTakenDecls; simpl. f_equal.
    apply leibniz_equiv. intros x. rewrite !elem_of_union. tauto.
  - pose proof HN as HN'.
    apply VisitBinaryOperator_inv in HN' as [->|(d & Hop & Hptr & Hu & Hd & ->)];
      [done|].
    rewrite (VisitBinaryOperator_unsafe _ _ _ d) by done. simpl.
    f_equal. destruct st; unfold set_ValidDecls; simpl. f_equal.
    apply leibniz_equiv. intros x. rewrite !elem_of_difference. tauto.
Qed.

Lemma collection_visit_idempotent_witness :
  PointerLevelCollectionVisitor.Visit (NDecl (VarDecl Cases.a None))
    Examples.collected_pq
    = Ok (registered 10%positive 2 Examples.collected_pq) ∧
  PointerLevelCollectionVisitor.Visit (NDecl (VarDecl Cases.a None))
    (registered 10%positive 2 Examples.collected_pq)
    = Ok (registered 10%positive 2 Examples.collected_pq).
Proof.
  assert (H : PointerLevelCollectionVisitor.Visit (NDecl (VarDecl Cases.a None))
                Examples.collected_pq
              = Ok (registered 10%positive 2 Examples.collected_pq))
    by (vm_compute; reflexivity).
  split; [exact H|].
  exact (collection_visit_idempotent _ _ _ H).
Defined.

Lemma VisitBinaryOperator_guarded Opc Lhs RHS st :
  isAssignmentOp Opc = true ∨ isCompoundAssignmentOp Opc = true →
  isPointerType (Expr_getType Lhs) = true →
  (¬ safeRhs RHS) →
  VisitBinaryOperator Opc Lhs RHS st
  = (DD ← getRefDecl Lhs; Ok (set_ValidDecls (ValidDecls st ∖ {[DD]}) st)).
Proof.
  intros Hop Hptr Hunsafe. unfold VisitBinaryOperator.
  replace (negb (isAssignmentOp Opc) && negb (isCompoundAssignmentOp Opc))
    with false
    by (destruct Hop as [-> | ->]; simpl; [done|by rewrite andb_false_r]).
  rewrite Hptr. cbn [negb]. unfold safeRhs in Hunsafe.
  destruct (IgnoreParenCasts RHS); simpl in *; try tauto; done.
Qed.

Lemma VisitBinaryOperator_skipped Opc Lhs RHS st :
  ¬ ((isAssignmentOp Opc = true ∨ isCompoundAssignmentOp Opc = true) ∧
     isPointerType (Expr_getType Lhs) = true ∧ ¬ safeRhs RHS) →
  VisitBinaryOperator Opc Lhs RHS st = Ok st.
Proof.
  intros Hn. unfold VisitBinaryOperator.
  destruct (negb (isAssignmentOp Opc) && negb (isCompoundAssignmentOp Opc)) eqn:Hop;
    [done|].
  destruct (isPointerType (Expr_getType Lhs)) eqn:Hptr; simpl; [|done].
  assert (Hop' : isAssignmentOp Opc = true ∨ isCompoundAssignmentOp Opc = true).
  { apply andb_false_iff in Hop as [H|H]; apply negb_false_iff in H; auto. }
  unfold safeRhs in Hn.
  destruct (IgnoreParenCasts RHS); simpl; try done; exfalso; apply Hn; tauto.
Qed.

Lemma safeRhs_dec RHS : safeRhs RHS ∨ ¬ safeRhs RHS.
Proof. unfold safeRhs. destruct (IgnoreParenCasts RHS); tauto. Qed.

Lemma collection_Visit_collectable N st :
  (∃ st', PointerLevelCollectionVisitor.Visit N st = Ok st') ↔ collectable N.
Proof.
  destruct N as [[DD ?|DD|DD ? ?| |]|[T D|T B M|T Opc E|T Opc L R| | | | | | |]];
    simpl; try (split; [done|intros _; by eauto]);
    try (split; [done|intros _; eexists; apply VisitDeclaratorDecl_effect]).
  - destruct (decide (Opc = UO_AddrOf)) as [->|HO].
    + unfold VisitUnaryOperator. simpl.
      destruct (IgnoreParenCasts E) as [T' D|T' B M| | | | | | | | |] eqn:HE; simpl;
        try (split; [done|intros _; eauto]).
      * split.
        -- intros [st' H].
           destruct (getCanonicalDeclaratorDecl (DeclRefExpr T' D)) as [d|] eqn:Hd;
             simpl in H; [|done].
           by apply getCanonicalDeclaratorDecl_Ok in Hd as (_ & _ & HK & _).
        -- intros HK.
           rewrite (getCanonicalDeclaratorDecl_wellKinded (DeclRefExpr T' D) D) by done.
           simpl. eauto.
      * split.
        -- intros [st' H].
           destruct (getCanonicalDeclaratorDecl (MemberExpr T' B M)) as [d|] eqn:Hd;
             simpl in H; [|done].
           by apply getCanonicalDeclaratorDecl_Ok in Hd as (_ & _ & HK & _).
        -- intros HK.
           rewrite (getCanonicalDeclaratorDecl_wellKinded (MemberExpr T' B M) M) by done.
           simpl. eauto.
    + unfold VisitUnaryOperator. rewrite bool_decide_eq_false_2 by done. simpl.
      split; [|eauto]. intros _. by destruct Opc.
  - split.
    + intros [st' H] Hop Hptr Hu.
      rewrite VisitBinaryOperator_guarded in H by done.
      destruct (getRefDecl L) as [d|Msg]; [eauto|done].
    + intros Hc.
      destruct (isAssignmentOp Opc || isCompoundAssignmentOp Opc) eqn:Hop;
        [apply orb_true_iff in Hop|apply orb_false_iff in Hop as [H1 H2]].
      * destruct (isPointerType (Expr_getType L)) eqn:Hptr.
        -- destruct (safeRhs_dec R) as [Hs|Hu].
           ++ rewrite VisitBinaryOperator_skipped by tauto. eauto.
           ++ destruct (Hc Hop eq_refl Hu) as [d Hd].
              rewrite VisitBinaryOperator_guarded, Hd by done. simpl. eauto.
        -- rewrite VisitBinaryOperator_skipped; [eauto|]. intros (_ & ? & _). congruence.
      * rewrite VisitBinaryOperator_skipped; [eauto|].
        intros ([?|?] & _); congruence.
Qed.

Lemma VisitAll_collectable Ns st :
  (∃ st', VisitAll PointerLevelCollectionVisitor.Visit Ns st = Ok st') ↔
  (∀ N, N ∈ Ns → collectable N).
Proof.
  revert st. induction Ns as [|N Ns IH]; intros st; simpl.
  - split; [intros _ N HN; by apply elem_of_nil in HN|eauto].
  - split.
    + intros [st' H] N' HN'.
      destruct (PointerLevelCollectionVisitor.Visit N st) as [s1|] eqn:HN;
        simpl in H; [|done].
      apply elem_of_cons in HN' as [->|HN'].
      * apply (collection_Visit_collectable _ st). eauto.
      * apply (proj1 (IH s1)); eauto.
    + intros Hall.
      destruct (proj2 (collection_Visit_collectable N st)) as [s1 Hs1].
      { apply Hall, list_elem_of_here. }
      rewrite Hs1. simpl. apply IH. intros N' HN'.
      by apply Hall, list_elem_of_further.
Qed.

(** X10.  Collection fails an assertion only at an address-of or at an
    assignment: it succeeds exactly when every address-of applied to a
    reference or member access has a referent of the expected class and
    every assignment that is to a left-hand side of pointer type from an
    unsafe right-hand side has a left-hand side that [getRefDecl]
    resolves.  Whether it succeeds does not depend on the counter or on
    the mode. *)
Theorem collection_succeeds_iff Ctx k q :
  (∃ st, Collect Ctx k q = Ok st) ↔
  (∀ N, N ∈ TranslationUnitNodes Ctx → collectable N).
Proof. rewrite Collect_nodes. apply VisitAll_collectable. Qed.

(** ** The collection run as a whole *)

Lemma VisitAll_split Visit Ns1 N Ns2 st st' :
  VisitAll Visit (Ns1 ++ N :: Ns2) st = Ok st' →
  ∃ s1 s2, VisitAll Visit Ns1 st = Ok s1 ∧ Visit N s1 = Ok s2 ∧
           VisitAll Visit Ns2 s2 = Ok st'.
Proof.
  rewrite VisitAll_app. destruct (VisitAll Visit Ns1 st) as [s1|]; simpl; [|done].
  destruct (Visit N s1) as [s2|] eqn:HN; simpl; [|done]. eauto.
Qed.

Lemma max_level_ok_Visit N st st' :
  registry_ok st → max_level_ok st →
  PointerLevelCollectionVisitor.Visit N st = Ok st' → max_level_ok st'.
Proof.
  intros Hok Hmax HN.
  assert (HD : ∀ DD, VisitDeclaratorDecl DD st = Ok st' → max_level_ok st').
  { intros DD [->|(c & lvl & _ & _ & Hc & Hlvl & ->)]%VisitDeclaratorDecl_cases;
      [done|].
    right. rewrite MaxIndirectLevel_registered. split; [lia|].
    destruct (decide (MaxIndirectLevel st < lvl)) as [Hlt|Hge].
    - exists c. rewrite Z.max_l by lia. apply registeredAt_registered. by right.
    - destruct Hmax as [[H0 _]|[_ [d Hd]]]; [lia|].
      exists d. rewrite Z.max_r by lia. apply registeredAt_registered. by left. }
  destruct N as [[DD ?|DD|DD ? ?| |]|[]]; simpl in HN;
    try (by inversion HN; subst); try (by eapply HD).
  - by apply VisitUnaryOperator_cases in HN as [->|(d & _ & _ & _ & ->)].
  - by apply VisitBinaryOperator_cases in HN as [->|(d & _ & _ & ->)].
Qed.

Lemma Collect_max_level_ok Ctx k q st :
  Collect Ctx k q = Ok st → max_level_ok st.
Proof.
  rewrite Collect_nodes. intros Hrun.
  apply (VisitAll_preserves (λ s, registry_ok s ∧ max_level_ok s)
           PointerLevelCollectionVisitor.Visit) with (Ns := TranslationUnitNodes Ctx)
           (st := newInstance k q) (st' := st); [|split|done].
  - intros N s s' [Hok Hmax] HN. split.
    + by eapply registry_ok_Visit.
    + by eapply max_level_ok_Visit.
  - apply registry_ok_newInstance.
  - by left.
Qed.

(** X11.  After collection the maximum level is attained: it is 0
    exactly when nothing was registered, and otherwise some declaration
    is registered at it.  Every level in use lies between 1 and the
    maximum, and the registered declarations are exactly the visited
    ones. *)
Theorem max_level_attained Ctx k q st :
  Collect Ctx k q = Ok st →
  0 ≤ MaxIndirectLevel st ∧
  (MaxIndirectLevel st = 0 ↔ VisitedDecls st = ∅) ∧
  (0 < MaxIndirectLevel st → ∃ d, registeredAt st (MaxIndirectLevel st) d) ∧
  (∀ L d, registeredAt st L d → 1 ≤ L ≤ MaxIndirectLevel st) ∧
  (∀ d, d ∈ VisitedDecls st ↔ ∃ L, registeredAt st L d).
Proof.
  intros Hc.
  pose proof (Collect_registry_ok _ _ _ _ Hc) as Hok.
  pose proof (Collect_max_level_ok _ _ _ _ Hc) as Hmax.
  split_and!.
  - destruct Hmax as [[-> _]|[? _]]; lia.
  - split.
    + intros H0. destruct Hmax as [[_ ?]|[? _]]; [done|lia].
    + intros Hempty. destruct Hmax as [[? _]|[_ [d Hd]]]; [done|].
      apply (reg_visited _ Hok) in Hd. rewrite Hempty in Hd.
      by apply not_elem_of_empty in Hd.
  - intros Hpos. destruct Hmax as [[? _]|[_ ?]]; [lia|done].
  - apply Hok.
  - intros d. split; [apply Hok|]. intros [L HL]. by apply (reg_visited _ Hok L).
Qed.

Lemma max_level_attained_witness :
  Collect Examples.program_pq 1 false = Ok Examples.collected_pq ∧
  (0 < MaxIndirectLevel Examples.collected_pq →
   ∃ d, registeredAt Examples.collected_pq
          (MaxIndirectLevel Examples.collected_pq) d).
Proof.
  split; [vm_compute; reflexivity|].
  apply (max_level_attained Examples.program_pq 1 false Examples.collected_pq).
  vm_compute; reflexivity.
Defined.

Lemma grows_refl st : grows st st.
Proof. by split. Qed.

Lemma grows_trans st1 st2 st3 : grows st1 st2 → grows st2 st3 → grows st1 st3.
Proof.
  intros [Hv1 Ha1 Hm1 Hl1] [Hv2 Ha2 Hm2 Hl2]. split.
  - by etrans.
  - by etrans.
  - lia.
  - intros L d Hd. by apply Hl2, Hl1.
Qed.

Lemma grows_Visit N st st' :
  PointerLevelCollectionVisitor.Visit N st = Ok st' → grows st st'.
Proof.
  intros HN.
  assert (HD : ∀ DD, VisitDeclaratorDecl DD st = Ok st' → grows st st').
  { intros DD [->|(c & lvl & _ & _ & Hc & Hlvl & ->)]%VisitDeclaratorDecl_cases;
      [apply grows_refl|].
    split.
    - rewrite VisitedDecls_registered. apply union_subseteq_r.
    - by rewrite AddrTakenDecls_registered.
    - rewrite MaxIndirectLevel_registered. lia.
    - intros L d Hd. apply registeredAt_registered. by left. }
  destruct N as [[DD ?|DD|DD ? ?| |]|[]]; simpl in HN;
    try (by inversion HN; subst; apply grows_refl); try (by eapply HD).
  - apply VisitUnaryOperator_cases in HN as [->|(d & _ & _ & _ & ->)];
      [apply grows_refl|].
    split; try done. simpl. apply union_subseteq_r.
  - apply VisitBinaryOperator_cases in HN as [->|(d & _ & _ & ->)];
      [apply grows_refl|].
    by split.
Qed.

(** X12.  Collection only adds to the visited set, to AddressTakenSet
    and to the registry, and never lowers the maximum level: over any
    sequence of visits each of them contains what it contained before,
    every declaration stays registered at the level it was registered
    at, and ValidSet gains no declaration that had been visited
    before. *)
Theorem collection_grows Ns st st' :
  VisitAll PointerLevelCollectionVisitor.Visit Ns st = Ok st' →
  VisitedDecls st ⊆ VisitedDecls st' ∧
  AddrTakenDecls st ⊆ AddrTakenDecls st' ∧
  MaxIndirectLevel st ≤ MaxIndirectLevel st' ∧
  (∀ L d, registeredAt st L d → registeredAt st' L d) ∧
  (∀ d, d ∈ VisitedDecls st → d ∈ ValidDecls st' → d ∈ ValidDecls st).
Proof.
  intros Hrun.
  assert (Hg : grows st st').
  { revert Hrun. apply (VisitAll_preserves (grows st)); [|apply grows_refl].
    intros N s s' Hs HN. eapply grows_trans; [exact Hs|]. by eapply grows_Visit. }
  destruct Hg as [Hv Ha Hm Hl]. split_and!; try done.
  intros d Hd. by destruct (collection_stable _ _ _ d Hrun Hd) as (_ & _ & ?).
Qed.

Lemma collection_grows_witness :
  VisitAll PointerLevelCollectionVisitor.Visit
    (TranslationUnitNodes Examples.program_addr) Examples.collected_pq
    = Ok (Examples.state_of
            (VisitAll PointerLevelCollectionVisitor.Visit
               (TranslationUnitNodes Examples.program_addr) Examples.collected_pq)) ∧
  AddrTakenDecls Examples.collected_pq ⊆
  AddrTakenDecls (Examples.state_of
            (VisitAll PointerLevelCollectionVisitor.Visit
               (TranslationUnitNodes Examples.program_addr) Examples.collected_pq)).
Proof.
  split; [vm_compute; reflexivity|].
  apply (collection_grows (TranslationUnitNodes Examples.program_addr)
           Examples.collected_pq).
  vm_compute; reflexivity.
Defined.

Lemma collection_Visit_levels N st st' L d :
  PointerLevelCollectionVisitor.Visit N st = Ok st' →
  registeredAt st' L d →
  registeredAt st L d ∨
  ∃ DD, visitedDeclarator N = Some DD ∧ registrable DD = true ∧
        getCanonicalDecl DD = d ∧
        L = getPointerIndirectLevel (registrationType DD).
Proof.
  intros HN Hd.
  assert (HD : ∀ DD, visitedDeclarator N = Some DD →
               VisitDeclaratorDecl DD st = Ok st' →
               registeredAt st L d ∨
               ∃ DD, visitedDeclarator N = Some DD ∧ registrable DD = true ∧
                     getCanonicalDecl DD = d ∧
                     L = getPointerIndirectLevel (registrationType DD)).
  { intros DD HDD. rewrite VisitDeclaratorDecl_effect.
    destruct (registrable DD) eqn:HR; [|intros [= <-]; by left].
    destruct (bool_decide _); intros [= <-]; [|by left].
    apply registeredAt_registered in Hd as [?|[-> ->]]; [by left|].
    right. by exists DD. }
  destruct N as [[DD ?|DD|DD ? ?| |]|[]]; simpl in HN;
    try (inversion HN; subst; by left); try (by eapply HD).
  - apply VisitUnaryOperator_cases in HN as [->|(d' & _ & _ & _ & ->)]; by left.
  - apply VisitBinaryOperator_cases in HN as [->|(d' & _ & _ & ->)]; by left.
Qed.

Lemma collection_Visit_registers N DD st st' :
  visitedDeclarator N = Some DD → registrable DD = true →
  PointerLevelCollectionVisitor.Visit N st = Ok st' →
  getCanonicalDecl DD ∈ VisitedDecls st'.
Proof.
  intros HDD HR HN.
  assert (HD : VisitDeclaratorDecl DD st = Ok st').
  { destruct N as [[? ?|?|? ? ?| |]|[]]; simpl in *; by simplify_eq. }
  rewrite VisitDeclaratorDecl_effect, HR in HD. cbn [andb] in HD.
  case_bool_decide as Hin; injection HD as <-.
  - rewrite VisitedDecls_registered. apply elem_of_union. left.
    by apply elem_of_singleton.
  - destruct (decide (getCanonicalDecl DD ∈ VisitedDecls st)); tauto.
Qed.

(** X13.  After collection the visited declarations are exactly the
    canonical declarations of the declarator nodes of the translation
    unit that are variables or fields of pointer type without a skipped
    name; each is registered, at the indirection level of one of these
    declarations of it.  Parameters, functions and non-pointers are
    therefore never in the registry. *)
Theorem registered_iff_declared Ctx k q st :
  Collect Ctx k q = Ok st →
  (∀ d, d ∈ VisitedDecls st ↔
        ∃ N DD, N ∈ TranslationUnitNodes Ctx ∧ visitedDeclarator N = Some DD ∧
                registrable DD = true ∧ getCanonicalDecl DD = d) ∧
  (∀ L d, registeredAt st L d →
        ∃ N DD, N ∈ TranslationUnitNodes Ctx ∧ visitedDeclarator N = Some DD ∧
                registrable DD = true ∧ getCanonicalDecl DD = d ∧
                L = getPointerIndirectLevel (registrationType DD)).
Proof.
  intros Hc. pose proof (Collect_registry_ok _ _ _ _ Hc) as Hok.
  rewrite Collect_nodes in Hc.
  assert (Horigin : ∀ L d, registeredAt st L d →
            ∃ N DD, N ∈ TranslationUnitNodes Ctx ∧ visitedDeclarator N = Some DD ∧
                    registrable DD = true ∧ getCanonicalDecl DD = d ∧
                    L = getPointerIndirectLevel (registrationType DD)).
  { revert Hc.
    apply (VisitAll_preserves_elem
             (λ s, ∀ L d, registeredAt s L d →
                ∃ N DD, N ∈ TranslationUnitNodes Ctx ∧ visitedDeclarator N = Some DD ∧
                        registrable DD = true ∧ getCanonicalDecl DD = d ∧
                        L = getPointerIndirectLevel (registrationType DD))).
    - intros N s s' HN Hs Hstep L d Hd.
      destruct (collection_Visit_levels _ _ _ _ _ Hstep Hd)
        as [Hold|(DD & H1 & H2 & H3 & H4)]; [by apply Hs|].
      exists N, DD. done.
    - intros L d Hd. unfold registeredAt, levelSet in Hd. simpl in Hd.
      rewrite lookup_empty in Hd. by apply elem_of_nil in Hd. }
  split; [|done].
  intros d. split.
  - intros [L HL]%(reg_total _ Hok).
    destruct (Horigin L d HL) as (N & DD & ? & ? & ? & ? & _). eauto 10.
  - intros (N & DD & HN & HDD & HR & <-).
    apply list_elem_of_split in HN as (Ns1 & Ns2 & HNs). rewrite HNs in Hc.
    apply VisitAll_split in Hc as (s1 & s2 & _ & Hstep & Hrest).
    pose proof (collection_Visit_registers _ _ _ _ HDD HR Hstep) as Hin.
    by destruct (collection_stable _ _ _ _ Hrest Hin).
Qed.

Lemma registered_iff_declared_witness :
  Collect Examples.program_pq 1 false = Ok Examples.collected_pq ∧
  (∀ L d, registeredAt Examples.collected_pq L d →
        ∃ N DD, N ∈ TranslationUnitNodes Examples.program_pq ∧
                visitedDeclarator N = Some DD ∧
                registrable DD = true ∧ getCanonicalDecl DD = d ∧
                L = getPointerIndirectLevel (registrationType DD)).
Proof.
  split; [vm_compute; reflexivity|].
  apply (registered_iff_declared Examples.program_pq 1 false Examples.collected_pq).
  vm_compute; reflexivity.
Defined.

Lemma VisitUnaryOperator_addr SubExpr DD st st' :
  referencedDecl (IgnoreParenCasts SubExpr) = Some DD →
  VisitUnaryOperator UO_AddrOf SubExpr st = Ok st' →
  getCanonicalDecl DD ∈ AddrTakenDecls st'.
Proof.
  intros Href. unfold VisitUnaryOperator. simpl.
  destruct (IgnoreParenCasts SubExpr) as [T D|T B M| | | | | | | | |] eqn:HE;
    simpl in *; try done.
  all: destruct (getCanonicalDeclaratorDecl _) as [d|] eqn:Hd; simpl; [|done].
  all: apply getCanonicalDeclaratorDecl_Ok in Hd as (DD' & HDD' & _ & ->).
  all: simpl in HDD'; simplify_eq; intros [= <-]; simpl.
  all: apply elem_of_union; left; by apply elem_of_singleton.
Qed.

(** X14.  After collection AddressTakenSet holds exactly the canonical
    declarations of the referents of the address-of nodes of the
    translation unit whose operand is, under parentheses and casts, a
    reference or a member access. *)
Theorem address_taken_iff Ctx k q st d :
  Collect Ctx k q = Ok st →
  d ∈ AddrTakenDecls st ↔
  ∃ N DD, N ∈ TranslationUnitNodes Ctx ∧ addressTakenAt N = Some DD ∧
          getCanonicalDecl DD = d.
Proof.
  intros Hc. rewrite Collect_nodes in Hc. split.
  - revert d. revert Hc.
    apply (VisitAll_preserves_elem
             (λ s, ∀ d, d ∈ AddrTakenDecls s →
                ∃ N DD, N ∈ TranslationUnitNodes Ctx ∧ addressTakenAt N = Some DD ∧
                        getCanonicalDecl DD = d)).
    + intros N s s' HN Hs Hstep d Hd.
      assert (HD : ∀ DD, VisitDeclaratorDecl DD s = Ok s' →
                   d ∈ AddrTakenDecls s).
      { intros DD [->|(c & lvl & _ & _ & _ & _ & ->)]%VisitDeclaratorDecl_cases;
          [done|]. by rewrite AddrTakenDecls_registered in Hd. }
      destruct N as [[DD ?|DD|DD ? ?| |]|[]]; simpl in Hstep;
        try (inversion Hstep; subst; by apply Hs);
        try (by apply Hs; eapply HD).
      * apply VisitUnaryOperator_cases in Hstep as [->|(d' & -> & _ & Hd' & ->)];
          [by apply Hs|].
        simpl in Hd. apply elem_of_union in Hd as [->%elem_of_singleton|Hd];
          [|by apply Hs].
        apply getCanonicalDeclaratorDecl_Ok in Hd' as (DD & HDD & _ & ->).
        eexists _, DD. split; [exact HN|]. done.
      * apply VisitBinaryOperator_cases in Hstep as [->|(d' & _ & _ & ->)];
          by apply Hs.
    + intros d' Hd'. simpl in Hd'. by apply not_elem_of_empty in Hd'.
  - intros (N & DD & HN & HDD & <-).
    apply list_elem_of_split in HN as (Ns1 & Ns2 & HNs). rewrite HNs in Hc.
    apply VisitAll_split in Hc as (s1 & s2 & _ & Hstep & Hrest).
    assert (Hin : getCanonicalDecl DD ∈ AddrTakenDecls s2).
    { destruct N as [?|[| |T Opc E| | | | | | | |]]; simpl in HDD; try done.
      destruct Opc; try done. simpl in Hstep.
      by eapply VisitUnaryOperator_addr. }
    assert (Hg : grows s2 st).
    { revert Hrest. apply (VisitAll_preserves (grows s2)); [|apply grows_refl].
      intros N' s s' Hs HN'. eapply grows_trans; [exact Hs|]. by eapply grows_Visit. }
    by apply (grows_addr _ _ Hg).
Qed.

Lemma address_taken_iff_witness :
  Collect Examples.program_addr 1 false = Ok Examples.collected_addr ∧
  (3%positive ∈ AddrTakenDecls Examples.collected_addr ↔
   ∃ N DD, N ∈ TranslationUnitNodes Examples.program_addr ∧
           addressTakenAt N = Some DD ∧ getCanonicalDecl DD = 3%positive).
Proof.
  split; [vm_compute; reflexivity|].
  apply (address_taken_iff Examples.program_addr 1 false Examples.collected_addr).
  vm_compute; reflexivity.
Defined.

(** X15.  A registered declaration that no assignment of the translation
    unit disqualifies is still in ValidSet after collection: when no
    assignment to a left-hand side of pointer type from an unsafe
    right-hand side resolves to it, it is valid, hence eligible as soon
    as it is at the maximum level or its address is not taken. *)
Theorem never_stored_stays_valid Ctx k q st d :
  (∀ N Lhs, N ∈ TranslationUnitNodes Ctx → disqualifyingStore N Lhs →
            getRefDecl Lhs ≠ Ok d) →
  Collect Ctx k q = Ok st →
  d ∈ VisitedDecls st →
  d ∈ ValidDecls st ∧
  (eligible st d ↔
   (registeredAt st (MaxIndirectLevel st) d ∨ d ∉ AddrTakenDecls st)).
Proof.
  intros Hnone Hc Hvis.
  pose proof (Collect_registry_ok _ _ _ _ Hc) as Hok.
  assert (Hval : d ∈ ValidDecls st).
  { rewrite Collect_nodes in Hc. revert Hvis. revert Hc.
    apply (VisitAll_preserves_elem (λ s, d ∈ VisitedDecls s → d ∈ ValidDecls s)).
    - intros N s s' HN Hs Hstep Hd.
      assert (HD : ∀ DD, VisitDeclaratorDecl DD s = Ok s' → d ∈ ValidDecls s').
      { intros DD [->|(c & lvl & _ & _ & _ & _ & ->)]%VisitDeclaratorDecl_cases;
          [by apply Hs|].
        rewrite VisitedDecls_registered in Hd. rewrite ValidDecls_registered.
        apply elem_of_union in Hd as [Hd|Hd]; apply elem_of_union; [by left|].
        right. by apply Hs. }
      destruct N as [[DD ?|DD|DD ? ?| |]|[| |T Opc E|T Opc L R| | | | | | |]];
        simpl in Hstep;
        try (inversion Hstep; subst; by apply Hs); try (by eapply HD).
      + apply VisitUnaryOperator_cases in Hstep as [->|(d' & _ & _ & _ & ->)];
          by apply Hs.
      + apply VisitBinaryOperator_inv in Hstep
          as [->|(d' & Hop & Hptr & Hu & Hd' & ->)]; [by apply Hs|].
        simpl in *. apply elem_of_difference. split; [by apply Hs|].
        intros ->%elem_of_singleton.
        apply (Hnone _ L HN); [|done]. by exists T, Opc, R.
    - simpl. intros Hd. by apply not_elem_of_empty in Hd. }
  split; [done|]. unfold eligible. split; [tauto|].
  intros H. split_and!; [by apply (reg_total _ Hok)|done|done].
Qed.

Lemma never_stored_stays_valid_witness :
  (∀ N Lhs, N ∈ TranslationUnitNodes Examples.program_store_ref →
            disqualifyingStore N Lhs → getRefDecl Lhs ≠ Ok 3%positive) ∧
  Collect Examples.program_store_ref 1 false = Ok Cases.collected_store_ref ∧
  3%positive ∈ VisitedDecls Cases.collected_store_ref ∧
  3%positive ∈ ValidDecls Cases.collected_store_ref.
Proof.
  assert (Hnone : ∀ N Lhs, N ∈ TranslationUnitNodes Examples.program_store_ref →
            disqualifyingStore N Lhs → getRefDecl Lhs ≠ Ok 3%positive).
  { intros N Lhs HN (T & Opc & RHS & -> & _ & _ & Hu). vm_compute in HN.
    repeat (apply elem_of_cons in HN as [HN|HN]; [try discriminate HN|]).
    - injection HN as -> -> -> ->. exfalso. apply Hu. exact I.
    - by apply elem_of_nil in HN. }
  assert (Hvis : 3%positive ∈ VisitedDecls Cases.collected_store_ref).
  { apply (bool_decide_unpack _). vm_compute. exact I. }
  assert (Hc : Collect Examples.program_store_ref 1 false
               = Ok Cases.collected_store_ref) by (vm_compute; reflexivity).
  split; [exact Hnone|]. split; [exact Hc|]. split; [exact Hvis|].
  exact (proj1 (never_stored_stays_valid Examples.program_store_ref 1 false
                  Cases.collected_store_ref 3%positive Hnone Hc Hvis)).
Defined.

Lemma HandleTopLevelDecl_app D1 D2 st :
  HandleTopLevelDecl (D1 ++ D2) st
  = (st' ← HandleTopLevelDecl D1 st; HandleTopLevelDecl D2 st').
Proof.
  rewrite !HandleTopLevelDecl_nodes, flat_map_app, VisitAll_app.
  destruct (VisitAll _ (flat_map TraverseDecl D1) st); simpl; [|done].
  by rewrite HandleTopLevelDecl_nodes.
Qed.

(** X16.  Only the order of the top-level declarations matters to the
    collector, not how they are grouped: handing over a group [D1 ++ D2]
    is handing over [D1] and then [D2], and two translation units with
    the same declarations in the same order, grouped differently,
    collect to the same result. *)
Theorem grouping_irrelevant Ctx1 Ctx2 k q :
  concat (TopLevelDecls Ctx1) = concat (TopLevelDecls Ctx2) →
  Collect Ctx1 k q = Collect Ctx2 k q ∧
  (∀ D1 D2 st,
     HandleTopLevelDecl (D1 ++ D2) st
     = (st' ← HandleTopLevelDecl D1 st; HandleTopLevelDecl D2 st')).
Proof.
  intros Hsame. split; [|apply HandleTopLevelDecl_app].
  rewrite !Collect_nodes. unfold TranslationUnitNodes. by rewrite Hsame.
Qed.

Lemma grouping_irrelevant_witness :
  concat (TopLevelDecls Examples.program_pq)
    = concat (TopLevelDecls Cases.program_pq_one_group) ∧
  Collect Examples.program_pq 1 false = Collect Cases.program_pq_one_group 1 false.
Proof.
  split; [reflexivity|].
  apply (grouping_irrelevant Examples.program_pq Cases.program_pq_one_group 1 false).
  reflexivity.
Defined.

(** ** Analysis and the apply run *)

Lemma HandleTranslationUnit_apply_inv Ctx st Ctx' st' :
  QueryInstanceOnly st = false →
  TransformationCounter st ≤ ValidInstanceNum (doAnalysis st) →
  HandleTranslationUnit Ctx st = Ok (Ctx', st') →
  Ctx' = setSuppressAllDiagnostics false Ctx ∧ st' = applied Ctx (doAnalysis st).
Proof.
  intros Hq Hk. unfold HandleTranslationUnit.
  rewrite doAnalysis_QueryInstanceOnly, Hq, doAnalysis_TransformationCounter.
  rewrite bool_decide_eq_false_2 by lia.
  unfold TransAssert. case_bool_decide; simpl; [|done].
  destruct (VisitAll _ _ _) as [st1|] eqn:Hrun; simpl; [|done].
  apply rewrite_traversal_id in Hrun. subst st1. unfold applied.
  change (hasErrorOccurred (setSuppressAllDiagnostics false Ctx))
    with (hasErrorOccurred Ctx).
  change (hasFatalErrorOccurred (setSuppressAllDiagnostics false Ctx))
    with (hasFatalErrorOccurred Ctx).
  destruct (_ || _); by intros [= <- <-].
Qed.

Lemma Collect_registered_origin Ctx k q st L d :
  Collect Ctx k q = Ok st → registeredAt st L d →
  ∃ N DD, N ∈ TranslationUnitNodes Ctx ∧ visitedDeclarator N = Some DD ∧
          registrable DD = true ∧ getCanonicalDecl DD = d.
Proof.
  rewrite Collect_nodes. intros Hc. revert L d. revert Hc.
  apply (VisitAll_preserves_elem
           (λ s, ∀ L d, registeredAt s L d →
              ∃ N DD, N ∈ TranslationUnitNodes Ctx ∧ visitedDeclarator N = Some DD ∧
                      registrable DD = true ∧ getCanonicalDecl DD = d)).
  - intros N s s' HN Hs Hstep L d Hd.
    destruct (collection_Visit_levels _ _ _ _ _ Hstep Hd)
      as [Hold|(DD & H1 & H2 & H3 & _)]; [by eapply Hs|].
    exists N, DD. done.
  - intros L d Hd. unfold registeredAt, levelSet in Hd. simpl in Hd.
    rewrite lookup_empty in Hd. by apply elem_of_nil in Hd.
Qed.

(** X17.  Take a translation unit whose declaration objects are those of
    its declarator nodes, an apply run with a counter between 1 and the
    count, and suppose the run completes.  Then the context it hands
    back is the one it was given with the suppression of diagnostics
    lifted; the selection is the canonical declaration of a variable or
    field node of the unit, eligible and the one the counter picks;
    the record declaration is the parent of that node when it is a
    field and stays unset when it is a variable; the count is the number
    of eligible declarations; and [TransInternalError] is reported
    exactly when the diagnostics state holds an error or a fatal
    error. *)
Theorem apply_in_range Ctx k st Ctx' st' :
  Collect Ctx k false = Ok st →
  1 ≤ k ≤ Z.of_nat (size (eligibleSet st)) →
  declObjectsOfUnit Ctx →
  runPass Ctx k false = Ok (Ctx', st') →
  Ctx' = setSuppressAllDiagnostics false Ctx ∧
  SuppressAllDiagnostics (Diagnostics Ctx') = false ∧
  TopLevelDecls Ctx' = TopLevelDecls Ctx ∧
  ValidInstanceNum st' = Z.of_nat (size (eligibleSet st)) ∧
  TransError st'
    = (if ErrorOccurred (Diagnostics Ctx) || FatalErrorOccurred (Diagnostics Ctx)
       then TransInternalError else TransSuccess) ∧
  ∃ N DD, N ∈ TranslationUnitNodes Ctx ∧ visitedDeclarator N = Some DD ∧
          (getKind DD = Var ∨ getKind DD = Field) ∧
          selectedBy st k = Some (getCanonicalDecl DD) ∧
          eligible st (getCanonicalDecl DD) ∧
          TheDecl st' = Some (getCanonicalDecl DD) ∧
          TheRecordDecl st'
            = (if bool_decide (getKind DD = Field)
               then Some (getParent DD) else None).
Proof.
  intros Hc Hk Hobj Hrun.
  pose proof (Collect_registry_ok _ _ _ _ Hc) as Hok.
  destruct (Collect_counter _ _ _ _ Hc) as (Hctr & Hq & Herr & Hrw & Hrd).
  pose proof (Collect_queryCount _ _ _ _ Hc) as Hcount. unfold queryCount in Hcount.
  pose proof (Collect_TheDecl _ _ _ _ Hc) as Hsel.
  rewrite bool_decide_eq_true_2 in Hsel by done.
  assert (Hlen : size (eligibleSet st) = length (candidates st))
    by (by apply size_eligibleSet).
  destruct (lookup_lt_is_Some_2 (candidates st) (Z.to_nat (k - 1))) as [d Hd]; [lia|].
  rewrite Hd in Hsel.
  assert (Hcand : d ∈ candidates st) by (apply list_elem_of_lookup; eauto).
  assert (Hsb : selectedBy st k = Some d).
  { unfold selectedBy. by rewrite set_TransformationCounter_id. }
  assert (Helig : eligible st d) by (by apply candidates_eligible).
  destruct Helig as ([L HL] & Hrest).
  destruct (Collect_registered_origin _ _ _ _ _ _ Hc HL)
    as (N & DD & HN & HDD & HR & <-).
  apply registrable_iff in HR as (HK & _ & _).
  destruct (Hobj N DD HN HDD) as (CD & HCD & HCK & HCP).
  unfold runPass in Hrun. rewrite Hc in Hrun. simpl in Hrun.
  apply HandleTranslationUnit_apply_inv in Hrun as [-> ->]; [|done|lia].
  assert (Hdyn : dyn_cast_FieldDecl (setSuppressAllDiagnostics false Ctx)
                   (TheDecl (doAnalysis st))
                 = if bool_decide (getKind DD = Field) then Some CD else None).
  { rewrite Hsel. unfold dyn_cast_FieldDecl. simpl. rewrite HCD. simpl.
    by rewrite HCK. }
  assert (Herr' : TransError (doAnalysis st) = TransSuccess)
    by (by rewrite doAnalysis_advance).
  assert (Hrd' : TheRecordDecl (doAnalysis st) = None)
    by (by rewrite doAnalysis_advance).
  assert (Hrec : ∀ X, X = setRecordDecl (setSuppressAllDiagnostics false Ctx)
                           (doAnalysis st) →
            TheDecl X = Some (getCanonicalDecl DD) ∧
            ValidInstanceNum X = Z.of_nat (size (eligibleSet st)) ∧
            TransError X = TransSuccess ∧
            TheRecordDecl X = (if bool_decide (getKind DD = Field)
                               then Some (getParent DD) else None)).
  { intros X ->. unfold setRecordDecl. rewrite Hdyn.
    case_bool_decide; simpl; split_and!; try done. by rewrite HCP. }
  destruct (Hrec _ eq_refl) as (H1 & H2 & H3 & H4).
  unfold applied, hasErrorOccurred, hasFatalErrorOccurred.
  split_and!; try done.
  - by destruct (_ || _).
  - destruct (_ || _); [done|exact H3].
  - exists N, DD. split_and!; try done.
    + split; [eauto|done].
    + by destruct (_ || _).
    + by destruct (_ || _).
Qed.

Lemma apply_in_range_witness :
  Collect (Cases.program_field true) 1 false = Ok Cases.collected_field ∧
  1 ≤ 1 ≤ Z.of_nat (size (eligibleSet Cases.collected_field)) ∧
  declObjectsOfUnit (Cases.program_field true) ∧
  ∃ Ctx' st',
    runPass (Cases.program_field true) 1 false = Ok (Ctx', st') ∧
    TransError st' = TransInternalError ∧
    ∃ N DD, N ∈ TranslationUnitNodes (Cases.program_field true) ∧
            visitedDeclarator N = Some DD ∧
            (getKind DD = Var ∨ getKind DD = Field) ∧
            selectedBy Cases.collected_field 1 = Some (getCanonicalDecl DD) ∧
            eligible Cases.collected_field (getCanonicalDecl DD) ∧
            TheDecl st' = Some (getCanonicalDecl DD) ∧
            TheRecordDecl st'
              = (if bool_decide (getKind DD = Field)
                 then Some (getParent DD) else None).
Proof.
  assert (Hc : Collect (Cases.program_field true) 1 false = Ok Cases.collected_field)
    by (vm_compute; reflexivity).
  assert (Hk : 1 ≤ 1 ≤ Z.of_nat (size (eligibleSet Cases.collected_field)))
    by (vm_compute; split; discriminate).
  assert (Hobj : declObjectsOfUnit (Cases.program_field true)).
  { intros N DD HN. vm_compute in HN.
    repeat (apply elem_of_cons in HN as [->|HN]; [try discriminate|]).
    - intros [= <-]. by exists Cases.buf.
    - intros [= <-]. by exists Cases.s.
    - by apply elem_of_nil in HN. }
  split; [exact Hc|]. split; [exact Hk|]. split; [exact Hobj|].
  destruct (runPass (Cases.program_field true) 1 false) as [[Ctx' st']|] eqn:Hrun;
    [|vm_compute in Hrun; discriminate].
  exists Ctx', st'. split; [reflexivity|].
  destruct (apply_in_range _ _ _ _ _ Hc Hk Hobj Hrun)
    as (_ & _ & _ & _ & Herr & Hsel).
  split; [exact Herr|exact Hsel].
Defined.

(** X18.  In apply mode a counter of 0 or less is not reported as a
    usage error: it is never above the count, no declaration is
    selected, and the run stops at the assertion on the selection. *)
Theorem apply_nonpositive_aborts Ctx k st :
  Collect Ctx k false = Ok st →
  k ≤ 0 →
  runPass Ctx k false = TransAssertFailed "NULL TheDecl!".
Proof.
  intros Hc Hk.
  destruct (Collect_counter _ _ _ _ Hc) as (Hctr & Hq & _).
  pose proof (Collect_queryCount _ _ _ _ Hc) as Hcount. unfold queryCount in Hcount.
  pose proof (Collect_TheDecl _ _ _ _ Hc) as Hsel.
  rewrite bool_decide_eq_false_2 in Hsel by lia.
  unfold runPass. rewrite Hc. simpl. unfold HandleTranslationUnit.
  rewrite doAnalysis_QueryInstanceOnly, Hq, doAnalysis_TransformationCounter.
  rewrite bool_decide_eq_false_2 by lia.
  rewrite Hsel. unfold TransAssert.
  rewrite bool_decide_eq_false_2; [done|]. by intros [? ?].
Qed.

Lemma apply_nonpositive_aborts_witness :
  Collect Examples.program_pq 0 false = Ok Cases.collected_pq_zero ∧
  0 ≤ 0 ∧
  runPass Examples.program_pq 0 false = TransAssertFailed "NULL TheDecl!".
Proof.
  split; [vm_compute; reflexivity|]. split; [done|].
  apply (apply_nonpositive_aborts Examples.program_pq 0 Cases.collected_pq_zero).
  - vm_compute; reflexivity.
  - done.
Defined.

(** X19.  Whatever instance it is run on, the analysis writes the running
    count and the selection only.  The count never decreases and does
    not depend on the counter.  The selection is left as it was when the
    count had already reached the counter; when it changes, the new
    selection is a registered declaration of ValidSet and the counter
    lies between the old count, excluded, and the new one. *)
Theorem doAnalysis_frame st :
  AllPtrDecls (doAnalysis st) = AllPtrDecls st ∧
  VisitedDecls (doAnalysis st) = VisitedDecls st ∧
  ValidDecls (doAnalysis st) = ValidDecls st ∧
  AddrTakenDecls (doAnalysis st) = AddrTakenDecls st ∧
  MaxIndirectLevel (doAnalysis st) = MaxIndirectLevel st ∧
  TheRecordDecl (doAnalysis st) = TheRecordDecl st ∧
  TransformationCounter (doAnalysis st) = TransformationCounter st ∧
  QueryInstanceOnly (doAnalysis st) = QueryInstanceOnly st ∧
  TransError (doAnalysis st) = TransError st ∧
  TheRewriter (doAnalysis st) = TheRewriter st ∧
  ValidInstanceNum st ≤ ValidInstanceNum (doAnalysis st) ∧
  (∀ k, ValidInstanceNum (doAnalysis (set_TransformationCounter k st))
        = ValidInstanceNum (doAnalysis st)) ∧
  (TransformationCounter st ≤ ValidInstanceNum st →
   TheDecl (doAnalysis st) = TheDecl st) ∧
  (TheDecl (doAnalysis st) ≠ TheDecl st →
   ∃ d, TheDecl (doAnalysis st) = Some d ∧ d ∈ ValidDecls st ∧
        (∃ L, registeredAt st L d) ∧
        ValidInstanceNum st < TransformationCounter st
          ≤ ValidInstanceNum (doAnalysis st)).
Proof.
  rewrite !doAnalysis_advance. split_and!; try done.
  - simpl. lia.
  - intros k. by rewrite doAnalysis_advance.
  - intros Hk. unfold advance, pick; simpl.
    by rewrite bool_decide_eq_false_2 by lia.
  - unfold advance, pick; simpl. case_bool_decide as Hk; [|done].
    intros _.
    destruct (lookup_lt_is_Some_2 (candidates st)
                (Z.to_nat (TransformationCounter st - ValidInstanceNum st - 1)))
      as [d Hd]; [lia|].
    exists d. assert (Hin : d ∈ candidates st)
      by (apply list_elem_of_lookup; eauto).
    split_and!; [done|by apply candidates_valid| |lia|lia].
    apply elem_of_candidates in Hin as [[? _]|(L & _ & ? & _)]; eauto.
Qed.
